(** * Character-level text generation notebooks: batching, encoding, sampling

    A shallow embedding of the data-preparation, training-loop, sampling and
    generation code of the notebooks [torch_model.ipynb] and
    [lstm-model-1.ipynb] (and of the earlier, unnamed revision of the Keras
    notebook), followed by the properties proved about it.

    Conventions of the embedding:
    - a Python exception is a value of [exn]; code that may raise returns
      [result A];
    - a one-dimensional integer array is a [list Z]; a two-dimensional array
      is the list of its rows ([matrix]); sizes, positions and counts are
      [nat] (the notebooks only ever pass non-negative counts);
    - a Python [dict] is a [gmap];
    - the recurrent network itself (LSTM, linear layer, softmax) is an
      external collaborator: it is a field of the record [CharRNN]; so are
      the optimisation step and the losses of the training loop ([learner])
      and the fitted Keras model of the generation loop ([model]);
    - a pseudo-random draw is an explicit argument (a number of [0,1));
    - the temperature sampler of the Keras notebook works on real numbers,
      since it takes logarithms and exponentials. *)

From Stdlib Require Import QArith Qabs Reals Lqa Lra.
From stdpp Require Import gmap list sorting.

Close Scope Q_scope.

(** ** Python exceptions and fallible computations *)

Module Py.

Inductive exn : Set :=
  | ZeroDivisionError
  | ValueError
  | IndexError
  | KeyError
  | TypeError
  | UnboundLocalError
  | RuntimeError.

Inductive result (A : Type) : Type :=
  | Ok (a : A)
  | Raise (e : exn).

Arguments Ok {A} a.
Arguments Raise {A} e.

Definition bind {A B : Type} (m : result A) (k : A → result B) : result B :=
  match m with
  | Ok a => k a
  | Raise e => Raise e
  end.

#[global] Instance result_ret : MRet result := λ A a, Ok a.
#[global] Instance result_bind : MBind result := λ A B k m, bind m k.

(** [for x in xs: ys.append(f x)], stopping at the first exception. *)
Fixpoint for_each {A B : Type} (f : A → result B) (xs : list A) : result (list B) :=
  match xs with
  | [] => Ok []
  | x :: xs' => y ← f x; ys ← for_each f xs'; mret (y :: ys)
  end.

(** A loop that updates a state and stops at the first exception. *)
Fixpoint for_state {S A : Type} (f : S → A → result S) (xs : list A) (s : S)
  : result S :=
  match xs with
  | [] => Ok s
  | x :: xs' => s' ← f s x; for_state f xs' s'
  end.

(** [d[k]] on a dictionary. *)
Definition getitem `{Countable K} {V : Type} (d : gmap K V) (k : K) : result V :=
  match d !! k with
  | Some v => Ok v
  | None => Raise KeyError
  end.

(** [dict(pairs)] and dictionary comprehensions: a later pair with the same
    key replaces the earlier one. *)
Definition dict_of `{Countable K} {V : Type} (pairs : list (K * V)) : gmap K V :=
  foldl (λ d kv, <[kv.1 := kv.2]> d) ∅ pairs.

(** [enumerate(xs)] *)
Definition enumerate {A : Type} (xs : list A) : list (nat * A) :=
  zip (seq 0 (length xs)) xs.

(** [a // b] on non-negative integers. *)
Definition floordiv (a b : nat) : result nat :=
  if decide (b = 0) then Raise ZeroDivisionError else Ok (a / b).

(** [range(0, stop, step)] for non-negative [stop] and [step]. *)
Definition range (stop step : nat) : result (list nat) :=
  if decide (step = 0) then Raise ValueError
  else Ok ((λ k, k * step) <$> seq 0 ((stop + step - 1) / step)).

End Py.

Export Py.

(** ** The part of numpy the notebooks use *)

Module Np.

Abbreviation matrix := (list (list Z)).

(** [a.shape[1]] of an array with at least one row. *)
Definition shape1 {A : Type} (a : list (list A)) : nat :=
  match a with
  | [] => 0
  | r :: _ => length r
  end.

(** The rows of a flat buffer cut into [k] rows of width [w]. *)
Fixpoint chunks {A : Type} (k w : nat) (l : list A) : list (list A) :=
  match k with
  | 0 => []
  | S k' => take w l :: chunks k' w (drop w l)
  end.

(** [a.reshape((n, -1))]: numpy refuses when the known dimensions multiply
    to zero or do not divide the size of the array. *)
Definition reshape_rows (n : nat) (a : list Z) : result matrix :=
  if decide (n = 0) then Raise ValueError
  else if decide (length a `mod` n = 0) then Ok (chunks n (length a / n) a)
  else Raise ValueError.

(** [a[:, lo:hi]]: slices clip, they never raise. *)
Definition cols (a : matrix) (lo hi : nat) : matrix :=
  (λ r, drop lo (take hi r)) <$> a.

(** [a[:, lo:]] *)
Definition cols_from (a : matrix) (lo : nat) : matrix :=
  drop lo <$> a.

(** [a[:, j]] for [j >= 0]: an integer index out of range raises. *)
Definition col (a : matrix) (j : nat) : result (list Z) :=
  if decide (j < shape1 a) then Ok ((λ r, default 0%Z (r !! j)) <$> a)
  else Raise IndexError.

(** [a[:, :-1]] *)
Definition init_cols (a : matrix) : matrix :=
  (λ r, take (length r - 1) r) <$> a.

(** [a[:, -1]] as a value. *)
Definition last_col (a : matrix) : result (list Z) :=
  if decide (shape1 a = 0) then Raise IndexError
  else col a (shape1 a - 1).

(** [np.zeros_like(x)] *)
Definition zeros_like (x : matrix) : matrix :=
  (λ r : list Z, (λ _, 0%Z) <$> r) <$> x.

(** [y[:, :-1] = v], where [v] has the shape of [y[:, :-1]]: every row keeps
    its last cell and takes the others from [v]. *)
Definition assign_init (y v : matrix) : matrix :=
  zip_with (λ yr vr, vr ++ drop (length yr - 1) yr) y v.

(** [y[:, -1] = c]: raises when [y] has no column. *)
Definition assign_last (y : matrix) (c : list Z) : result matrix :=
  if decide (shape1 y = 0) then Raise IndexError
  else Ok (zip_with (λ yr v, take (length yr - 1) yr ++ [v]) y c).

End Np.

Export Np.

(** ** Mini-batches ([get_batches] of torch_model.ipynb) *)

Module Batcher.

(** The [except IndexError] branch:
    [y[:, :-1], y[:, -1] = x[:, 1:], arr[:, 0]]. *)
Definition targets_wrapped (arr x y : matrix) : result matrix :=
  let v := cols_from x 1 in
  c ← col arr 0;
  assign_last (assign_init y v) c.

(** The body of the loop after [x] is cut: [y = np.zeros_like(x)], then the
    [try] statement. The right-hand side of the tuple assignment is
    evaluated before any store into [y]; an [IndexError] raised anywhere in
    the [try] block runs the handler on the current [y]. *)
Definition targets (arr x : matrix) (n n_steps : nat) : result matrix :=
  let y := zeros_like x in
  let v := cols_from x 1 in
  match col arr (n + n_steps) with
  | Ok c =>
      let y' := assign_init y v in
      match assign_last y' c with
      | Raise IndexError => targets_wrapped arr x y'
      | r => r
      end
  | Raise IndexError => targets_wrapped arr x y
  | Raise e => Raise e
  end.

(** Whether iteration [n] leaves the [try] block through the handler
    because of the column read [arr[:, n+n_steps]]. *)
Definition takes_handler (arr : matrix) (n n_steps : nat) : bool :=
  match col arr (n + n_steps) with
  | Raise IndexError => true
  | _ => false
  end.

(** The generator, as the list of the pairs it yields in order. *)
Definition get_batches (arr : list Z) (n_seqs n_steps : nat)
  : result (list (matrix * matrix)) :=
  let batch_size := n_seqs * n_steps in
  n_batches ← floordiv (length arr) batch_size;
  let arr := take (n_batches * batch_size) arr in
  arr ← reshape_rows n_seqs arr;
  ns ← range (shape1 arr) n_steps;
  for_each (λ n,
    let x := cols arr n (n + n_steps) in
    y ← targets arr x n n_steps;
    mret (x, y)) ns.

(** The reshaped corpus: [n_seqs] rows cut from the truncated corpus. *)
Definition rows_of (arr : list Z) (n_seqs n_steps : nat) : matrix :=
  let n_batches := length arr / (n_seqs * n_steps) in
  chunks n_seqs (n_batches * n_steps) (take (n_batches * (n_seqs * n_steps)) arr).

(** The column that completes the targets of the [k]-th slice out of [nb]:
    the one after the slice, or the first one after the last slice. *)
Definition next_index (n_steps nb k : nat) : nat :=
  if decide (S k < nb) then k * n_steps + n_steps else 0.

(** A slice shifted left by one symbol and completed by the column [c]. *)
Definition shifted (x : matrix) (c : list Z) : matrix :=
  zip_with (λ xr v, drop 1 xr ++ [v]) x c.

(** The [k]-th pair in closed form. *)
Definition batch_at (rows : matrix) (n_steps nb k : nat) : matrix * matrix :=
  let x := cols rows (k * n_steps) (k * n_steps + n_steps) in
  (x, shifted x ((λ r, default 0%Z (r !! next_index n_steps nb k)) <$> rows)).

End Batcher.


(** ** One-hot encoding ([one_hot_encode] of torch_model.ipynb)

    The cells are [float32] zeros and ones; they are kept as the integers
    0 and 1. *)

Module OneHot.

(** [np.zeros((m, n))] *)
Definition zeros (m n : nat) : matrix := replicate m (replicate n 0%Z).

(** An integer index [v] on an axis of size [n]: negative indices count from
    the end, anything outside [-n, n) raises. *)
Definition norm_index (n : nat) (v : Z) : result nat :=
  if decide (0 ≤ v < Z.of_nat n)%Z then Ok (Z.to_nat v)
  else if decide (- Z.of_nat n ≤ v < 0)%Z then Ok (Z.to_nat (v + Z.of_nat n))
  else Raise IndexError.

(** [a[r, c] = v] for one pair of indices. *)
Definition set_cell (v : Z) (a : matrix) (rc : nat * Z) : result matrix :=
  match a !! rc.1 with
  | None => Raise IndexError
  | Some row =>
      j ← norm_index (length row) rc.2;
      Ok (<[rc.1 := <[j := v]> row]> a)
  end.

(** [a[rs, cs] = v] with two index arrays of the same length. *)
Definition set_cells (a : matrix) (rs : list nat) (cs : list Z) (v : Z)
  : result matrix :=
  if decide (length rs = length cs) then for_state (set_cell v) (zip rs cs) a
  else Raise IndexError.

Definition one_hot_encode (arr : matrix) (n_labels : nat) : result (list matrix) :=
  let m := length arr in
  let n := shape1 arr in
  (* Initialize the the encoded array *)
  let one_hot := zeros (m * n) n_labels in
  (* Fill the appropriate elements with ones *)
  one_hot ← set_cells one_hot (seq 0 (length one_hot)) (concat arr) 1;
  (* Finally reshape it to get back to the original array *)
  Ok (chunks m n one_hot).

End OneHot.

(** ** Vocabulary

    A character is its Unicode code point. *)

Module Vocab.

Abbreviation char := N.

(** [int2char = dict(enumerate(chars))] *)
Definition int2char (chars : list char) : gmap nat char :=
  dict_of (enumerate chars).

(** [char2int = {ch: ii for ii, ch in int2char.items()}]; the items of a
    dictionary built from [enumerate] come back in the order of [chars]. *)
Definition char2int (chars : list char) : gmap char nat :=
  dict_of ((λ kv, (kv.2, kv.1)) <$> enumerate chars).

(** [encoded = np.array([char2int[ch] for ch in text])] *)
Definition encode (chars : list char) (text : list char) : result (list Z) :=
  for_each (λ ch, i ← getitem (char2int chars) ch; mret (Z.of_nat i)) text.

(** [sorted(list(set(text)))] of the Keras notebooks: the distinct symbols
    in increasing order, whatever the iteration order of the set. *)
Definition sorted_chars (text : list char) : list char :=
  merge_sort N.le (remove_dups text).

(** [char_indices = dict((c,i) for i,c in enumerate(chars))] *)
Definition char_indices (chars : list char) : gmap char nat :=
  dict_of ((λ kv, (kv.2, kv.1)) <$> enumerate chars).

(** [indices_char = dict((i,c) for i,c in enumerate(chars))] *)
Definition indices_char (chars : list char) : gmap nat char :=
  dict_of ((λ kv, (kv.1, kv.2)) <$> enumerate chars).

(** What it is for two dictionaries to be a bijection between the distinct
    symbols of [text] and the indices [0 .. V-1], each the inverse of the
    other. *)
Definition bijection (text : list char) (i2c : gmap nat char) (c2i : gmap char nat)
  : Prop :=
  let V := length (remove_dups text) in
  (∀ i, is_Some (i2c !! i) ↔ i < V) ∧
  (∀ c, is_Some (c2i !! c) ↔ c ∈ text) ∧
  (∀ i, i < V → i2c !! i ≫= (c2i !!.) = Some i) ∧
  (∀ c, c ∈ text → c2i !! c ≫= (i2c !!.) = Some c).

End Vocab.

Export Vocab.

(** ** Prediction and sampling ([CharRNN.predict] and [sample] of
    torch_model.ipynb)

    Probabilities are exact rationals: the rounding of [float32] arithmetic
    is not part of the model. *)

Module Sampler.

(** An array of dimension 0, 1 or 2, as left by [squeeze]. *)
Inductive nd (A : Type) : Type :=
  | Nd0 (a : A)
  | Nd1 (l : list A)
  | Nd2 (l : list (list A)).

Arguments Nd0 {A} a.
Arguments Nd1 {A} l.
Arguments Nd2 {A} l.

(** [a.squeeze()] on a two-dimensional array with at least one row: every
    axis of length one is removed. *)
Definition squeeze {A : Type} (a : list (list A)) : nd A :=
  match a with
  | [[v]] => Nd0 v
  | [r] => Nd1 r
  | _ => if forallb (λ r, bool_decide (length r = 1)) a then Nd1 (concat a)
         else Nd2 a
  end.

Definition Qsum (l : list Q) : Q := foldr Qplus 0%Q l.

(** [p.sum()] *)
Definition nd_sum (p : nd Q) : Q :=
  match p with
  | Nd0 v => v
  | Nd1 l => Qsum l
  | Nd2 a => Qsum (concat a)
  end.

(** [p / s] for a scalar [s] *)
Definition nd_div (p : nd Q) (s : Q) : nd Q :=
  match p with
  | Nd0 v => Nd0 (v / s)%Q
  | Nd1 l => Nd1 ((λ x, x / s)%Q <$> l)
  | Nd2 a => Nd2 ((λ r : list Q, (λ x, x / s)%Q <$> r) <$> a)
  end.

#[global] Instance Qle_dec : RelDecision Qle :=
  λ x y, decide (Qnum x * QDen y ≤ Qnum y * QDen x)%Z.

#[global] Instance Qlt_dec : RelDecision Qlt :=
  λ x y, decide (Qnum x * QDen y < Qnum y * QDen x)%Z.

(** Order used by [topk]: larger probability first. *)
Definition prob_ge (a b : Q * nat) : Prop := (b.1 <= a.1)%Q.

#[global] Instance prob_ge_dec : RelDecision prob_ge :=
  λ a b, decide (b.1 <= a.1)%Q.

(** [row.topk(k)]: the [k] largest values in decreasing order, with their
    positions; refused when [k] exceeds the size of the row. *)
Definition topk_row (k : nat) (row : list Q) : result (list Q * list nat) :=
  if decide (k ≤ length row) then
    let best := take k (merge_sort prob_ge (zip row (seq 0 (length row)))) in
    Ok (best.*1, best.*2)
  else Raise RuntimeError.

(** [p.topk(k)] on a two-dimensional tensor works along the last axis. *)
Definition topk (p : list (list Q)) (k : nat)
  : result (list (list Q) * list (list nat)) :=
  rows ← for_each (topk_row k) p;
  Ok (rows.*1, rows.*2).

(** [p.cumsum()] *)
Fixpoint cumsum_from (acc : Q) (l : list Q) : list Q :=
  match l with
  | [] => []
  | x :: l' => (acc + x)%Q :: cumsum_from (acc + x)%Q l'
  end.

Definition cumsum (l : list Q) : list Q := cumsum_from 0%Q l.

(** [cdf.searchsorted(u, side='right')] on a non-decreasing array: the
    position of the first entry greater than [u]. *)
Fixpoint searchsorted_right (cdf : list Q) (u : Q) : nat :=
  match cdf with
  | [] => 0
  | c :: cdf' => if decide (c <= u)%Q then S (searchsorted_right cdf' u) else 0
  end.

(** Tolerance of [np.random.choice] on the sum of [p]: the square root of
    the [float64] machine epsilon. *)
Definition atol : Q := 1 # 67108864.

(** [np.random.choice(a, p=p)] with the uniform draw [u] of [[0,1)] made
    explicit. A zero-dimensional [a] stands for [np.arange(a)]; [len(p)] is
    taken before anything else is asked of [p]. *)
Definition choice (a : nd nat) (p : nd Q) (u : Q) : result nat :=
  pop ← match a with
        | Nd0 v => if decide (v = 0) then Raise ValueError else Ok (seq 0 v)
        | Nd1 l => if decide (length l = 0) then Raise ValueError else Ok l
        | Nd2 _ => Raise ValueError
        end;
  match p with
  | Nd0 _ => Raise TypeError
  | Nd2 _ => Raise ValueError
  | Nd1 pl =>
      if decide (length pl ≠ length pop) then Raise ValueError
      else if existsb (λ x, bool_decide (x < 0)%Q) pl then Raise ValueError
      else if decide (atol < Qabs (Qsum pl - 1))%Q then Raise ValueError
      else
        let cdf := cumsum pl in
        let cdf := (λ c, c / default 0 (last cdf))%Q <$> cdf in
        let idx := searchsorted_right cdf u in
        match pop !! idx with
        | Some c => Ok c
        | None => Raise IndexError
        end
  end.

(** The network: its vocabulary, and the LSTM, the linear layer and the
    softmax as one function from a one-hot input and a hidden state to the
    array of probabilities [F.softmax(out).data] and the next hidden
    state. *)
Record CharRNN (H : Type) : Type := {
  chars : list char;
  init_hidden : nat → H;
  softmax_forward : list matrix → H → list (list Q) * H
}.

Arguments chars {H} _.
Arguments init_hidden {H} _ _.
Arguments softmax_forward {H} _ _ _.

Section Predict.
Context {H : Type}.

Definition predict (net : CharRNN H) (char : char) (h : option H)
    (top_k : option nat) (u : Q) : result (Vocab.char * H) :=
  let h := default (init_hidden net 1) h in
  i ← getitem (char2int (chars net)) char;
  x ← OneHot.one_hot_encode [[Z.of_nat i]] (length (chars net));
  let '(p, h) := softmax_forward net x h in
  '(p, top_ch) ← match top_k with
                 | None => Ok (p, Nd1 (seq 0 (length (chars net))))
                 | Some k => '(p, top_ch) ← topk p k; Ok (p, squeeze top_ch)
                 end;
  let p := squeeze p in
  c ← choice top_ch (nd_div p (nd_sum p)) u;
  ch ← getitem (int2char (chars net)) c;
  Ok (ch, h).

(** State of [sample] between two statements: the list [chars], the
    variable [char] (unbound until the first prediction), the hidden state
    and the number of random draws made so far. *)
Record sampling : Type := {
  s_chars : list char;
  s_char : option char;
  s_h : H;
  s_draws : nat
}.

(** [char, h = net.predict(ch, h, top_k=top_k)] *)
Definition step_predict (net : CharRNN H) (top_k : option nat) (rnd : nat → Q)
    (s : sampling) (ch : char) : result sampling :=
  '(c, h) ← predict net ch (Some (s_h s)) top_k (rnd (s_draws s));
  Ok {| s_chars := s_chars s; s_char := Some c; s_h := h;
        s_draws := S (s_draws s) |}.

(** [chars.append(char)] *)
Definition append_char (s : sampling) : result sampling :=
  match s_char s with
  | None => Raise UnboundLocalError
  | Some c => Ok {| s_chars := s_chars s ++ [c]; s_char := s_char s;
                    s_h := s_h s; s_draws := s_draws s |}
  end.

(** One turn of the generation loop:
    [char, h = net.predict(chars[-1], h, top_k=top_k); chars.append(char)] *)
Definition step_generate (net : CharRNN H) (top_k : option nat) (rnd : nat → Q)
    (s : sampling) (ii : nat) : result sampling :=
  prev ← match last (s_chars s) with
         | Some c => Ok c
         | None => Raise IndexError
         end;
  s ← step_predict net top_k rnd s prev;
  append_char s.

(** [sample(net, size, prime, top_k)]; [rnd t] is the uniform draw of the
    [t]-th call of [np.random.choice]. *)
Definition sample (net : CharRNN H) (size : nat) (prime : list char)
    (top_k : option nat) (rnd : nat → Q) : result (list char) :=
  (* First off, run through the prime characters *)
  let s := {| s_chars := prime; s_char := None;
              s_h := init_hidden net 1; s_draws := 0 |} in
  s ← for_state (step_predict net top_k rnd) prime s;
  s ← append_char s;
  (* Now pass in the previous character and get a new one *)
  s ← for_state (step_generate net top_k rnd) (seq 0 size) s;
  Ok (s_chars s).

(** The shape of what the network returns for one character: one row of
    [len(chars)] probabilities, all positive as a softmax gives them. *)
Definition softmax_shaped (net : CharRNN H) : Prop :=
  ∀ x h, ∃ row,
    (softmax_forward net x h).1 = [row] ∧
    length row = length (chars net) ∧
    Forall (λ q, 0 < q)%Q row.

(** The settings of [top_k] for which the arrays handed to
    [np.random.choice] keep one dimension after [squeeze]. *)
Definition admissible (net : CharRNN H) (top_k : option nat) : Prop :=
  match top_k with
  | None => 2 ≤ length (chars net)
  | Some k => 2 ≤ k ≤ length (chars net)
  end.

(** The draws are uniform samples of [[0,1)]. *)
Definition unit_draws (rnd : nat → Q) : Prop :=
  ∀ t, (0 <= rnd t)%Q ∧ (rnd t < 1)%Q.

End Predict.

Arguments sampling H : clear implicits.

(** A network over the vocabulary "abc" that ignores its input and always
    returns the probabilities 1/3, 1/2, 1/6; used to run the model. *)
Definition abc_net : CharRNN unit := {|
  chars := [97; 98; 99]%N;
  init_hidden := λ _, tt;
  softmax_forward := λ _ _, ([[1 # 3; 1 # 2; 1 # 6]%Q], tt)
|}.

End Sampler.

(** ** The Keras notebooks *)

Module Keras.

Definition max_len : nat := 40.
Definition step : nat := 3.

(** The windows of the corpus and the symbol that follows each:
    [for i in range(0, len(text) - max_len, step):
       sentences.append(text[i:i+max_len]); next_chars.append(text[i+max_len])] *)
Definition windows (max_len step : nat) (text : list char)
  : result (list (list char) * list char) :=
  starts ← range (length text - max_len) step;
  for_state (λ (acc : list (list char) * list char) i,
    nc ← match text !! (i + max_len) with
         | Some c => Ok c
         | None => Raise IndexError
         end;
    Ok (acc.1 ++ [drop i (take (i + max_len) text)], acc.2 ++ [nc]))
    starts ([], []).

(** [np.zeros((a, b, c), dtype=np.bool)] and [np.zeros((a, b), dtype=np.bool)] *)
Definition zeros3 (a b c : nat) : list (list (list bool)) :=
  replicate a (replicate b (replicate c false)).

Definition zeros2 (a b : nat) : list (list bool) :=
  replicate a (replicate b false).

(** [x[i, t, k] = 1] *)
Definition store3 (x : list (list (list bool))) (i t k : nat)
  : result (list (list (list bool))) :=
  match x !! i with
  | None => Raise IndexError
  | Some m =>
      match m !! t with
      | None => Raise IndexError
      | Some row =>
          if decide (k < length row)
          then Ok (<[i := <[t := <[k := true]> row]> m]> x)
          else Raise IndexError
      end
  end.

(** [y[i, k]], an expression statement: the cell is read and the value is
    dropped. *)
Definition load2 (y : list (list bool)) (i k : nat) : result (list (list bool)) :=
  match y !! i with
  | None => Raise IndexError
  | Some row =>
      match row !! k with
      | None => Raise IndexError
      | Some _ => Ok y
      end
  end.

(** [y[i, k] = 1], the statement of lstm-model-1.ipynb. *)
Definition store2 (y : list (list bool)) (i k : nat) : result (list (list bool)) :=
  match y !! i with
  | None => Raise IndexError
  | Some row =>
      if decide (k < length row) then Ok (<[i := <[k := true]> row]> y)
      else Raise IndexError
  end.

Section Vectorization.
(** The last statement of the loop body, which is where the two revisions
    of the notebook differ. *)
Variable target_stmt : list (list bool) → nat → nat → result (list (list bool)).

(** [for t, char in enumerate(sentence): x[i, t, char_indices[char]] = 1] *)
Definition fill_sentence (chars : list char) (i : nat)
    (x : list (list (list bool))) (tc : nat * char)
  : result (list (list (list bool))) :=
  k ← getitem (char_indices chars) tc.2;
  store3 x i tc.1 k.

Definition vectorize_sentence (chars : list char) (next_chars : list char)
    (xy : list (list (list bool)) * list (list bool)) (ise : nat * list char)
  : result (list (list (list bool)) * list (list bool)) :=
  x ← for_state (fill_sentence chars ise.1) (enumerate ise.2) xy.1;
  nc ← match next_chars !! ise.1 with
       | Some c => Ok c
       | None => Raise IndexError
       end;
  k ← getitem (char_indices chars) nc;
  y ← target_stmt xy.2 ise.1 k;
  Ok (x, y).

(** From the corpus to the arrays [x] and [y] after the loop. *)
Definition vectorization_with (max_len step : nat) (text : list char)
  : result (list (list (list bool)) * list (list bool)) :=
  let chars := sorted_chars text in
  sn ← windows max_len step text;
  let x := zeros3 (length sn.1) max_len (length chars) in
  let y := zeros2 (length sn.1) (length chars) in
  for_state (vectorize_sentence chars sn.2) (enumerate sn.1) (x, y).
End Vectorization.

(** The unnamed revision: [y[i,char_indices[next_chars[i]]]]. *)
Definition vectorization (text : list char) :=
  vectorization_with load2 max_len step text.

(** lstm-model-1.ipynb: [y[i,char_indices[next_chars[i]]] = 1]. *)
Definition vectorization_assigning (text : list char) :=
  vectorization_with store2 max_len step text.

End Keras.

(** ** Temperature sampling ([sample(preds, temperature)] of
    lstm-model-1.ipynb) *)

Module Temperature.

Local Open Scope R_scope.

(** [rk_binomial(state, 1, p)] of numpy's legacy generator, with its uniform
    draw [u]: for [p <= 0.5] the inversion loop returns 1 exactly when
    [u > 1 - p]; above 0.5 it is run on [1 - p] and the result is
    complemented. *)
Definition binomial1 (p u : R) : nat :=
  if Rle_dec p (1 / 2) then (if Rlt_dec (1 - p) u then 1%nat else 0%nat)
  else (1 - (if Rlt_dec (1 - (1 - p)) u then 1 else 0))%nat.

(** The inner loop of [multinomial] for one trial: category [j] is tried
    with probability [pix[j] / Sum]; the last category takes the trial when
    no earlier one did. *)
Fixpoint multinomial_trial (pix : list R) (Sum : R) (rnd : nat → R) (t : nat)
  : list nat :=
  match pix with
  | [] => []
  | [_] => [1%nat]
  | p :: rest =>
      if decide (binomial1 (p / Sum) (rnd t) = 1%nat)
      then 1%nat :: replicate (length rest) 0%nat
      else 0%nat :: multinomial_trial rest (Sum - p) rnd (S t)
  end.

Definition Rsum (l : list R) : R := foldr Rplus 0 l.

(** [np.random.multinomial(1, pvals, 1)] of the legacy generator (numpy 1.x
    as used with Python 3.6): the only check is on the sum of all entries
    but the last. *)
Definition multinomial (pvals : list R) (rnd : nat → R) : result (list (list nat)) :=
  if Rlt_dec (1 + 1 / 10 ^ 12) (Rsum (take (length pvals - 1) pvals))
  then Raise ValueError
  else Ok [multinomial_trial pvals 1 rnd 0].

(** [np.argmax] of a flattened array: the first position of the maximum. *)
Fixpoint argmax_from (best : nat) (besti : nat) (i : nat) (l : list nat) : nat :=
  match l with
  | [] => besti
  | v :: l' => if decide (best < v)%nat then argmax_from v i (S i) l'
               else argmax_from best besti (S i) l'
  end.

Definition argmax (a : list (list nat)) : result nat :=
  match concat a with
  | [] => Raise ValueError
  | v :: l => Ok (argmax_from v 0 1 l)
  end.

(** The vector handed to [np.random.multinomial]:
    [preds = np.log(preds) / temperature]. *)
Definition scaled_log (preds : list R) (temperature : R) : list R :=
  (λ p, ln p / temperature) <$> preds.

(** [exp_preds] is computed and not used. [np.log] of a zero probability is
    [-inf] where [ln 0] is 0 here; the properties below take positive
    probabilities. *)
Definition sample (preds : list R) (temperature : R) (rnd : nat → R) : result nat :=
  let preds := scaled_log preds temperature in
  let exp_preds := exp <$> preds in
  probas ← multinomial preds rnd;
  argmax probas.

End Temperature.

(** ** The training loop ([train] of torch_model.ipynb)

    The calls into the deep-learning library are fields of [learner]; the
    network parameters (with the state of the optimiser) are a value of
    [P], a loss is a value of [L]. *)

Module Train.

(** [t.view(n)]: the cells in row-major order, refused when there are not
    [n] of them. *)
Definition view (y : matrix) (n : nat) : result (list Z) :=
  if decide (length (concat y) = n) then Ok (concat y) else Raise RuntimeError.

(** [counter % print_every] *)
Definition modulo (a b : nat) : result nat :=
  if decide (b = 0) then Raise ZeroDivisionError else Ok (a `mod` b).

Record learner (P H L : Type) : Type := {
  (* net.init_hidden(n_seqs) *)
  init_hidden : P → nat → H;
  (* net.zero_grad(); output, h = net.forward(inputs, h);
     loss = criterion(output, targets); loss.backward();
     clip_grad_norm(net.parameters(), clip); opt.step() *)
  fit : P → list matrix → H → list Z → P * H * L;
  (* output, val_h = net.forward(inputs, val_h);
     val_loss = criterion(output, targets) *)
  evaluate : P → list matrix → H → list Z → H * L;
  (* np.mean(val_losses) *)
  mean : list L → L
}.

Arguments init_hidden {P H L} _ _ _.
Arguments fit {P H L} _ _ _ _ _.
Arguments evaluate {P H L} _ _ _ _ _.
Arguments mean {P H L} _ _.

(** What the loop carries from batch to batch, besides the hidden state:
    the network, [counter], and the lines printed so far, each with the
    epoch, the step, the training loss and the mean validation loss. *)
Record progress (P L : Type) : Type := {
  net : P;
  counter : nat;
  printed : list (nat * nat * L * L)
}.

Arguments net {P L} _.
Arguments counter {P L} _.
Arguments printed {P L} _.

Section Train.
Context {P H L : Type}.
Variable lib : learner P H L.
Variables (n_seqs n_steps n_chars print_every : nat).

(** One turn of the validation loop. *)
Definition validate_batch (p : P) (vs : H * list L) (xy : matrix * matrix)
  : result (H * list L) :=
  x ← OneHot.one_hot_encode xy.1 n_chars;
  targets ← view xy.2 (n_seqs * n_steps);
  let r := evaluate lib p x vs.1 targets in
  Ok (r.1, vs.2 ++ [r.2]).

(** The validation sweep: [val_h = net.init_hidden(n_seqs)],
    [val_losses = []], then the loop over [get_batches(val_data, ...)]. *)
Definition validate (p : P) (val_data : list Z) : result (list L) :=
  bs ← Batcher.get_batches val_data n_seqs n_steps;
  vs ← for_state (validate_batch p) bs (init_hidden lib p n_seqs, []);
  Ok vs.2.

(** One turn of the training loop of epoch [e]. *)
Definition train_batch (val_data : list Z) (e : nat) (sh : progress P L * H)
    (xy : matrix * matrix) : result (progress P L * H) :=
  let counter := S (counter sh.1) in
  x ← OneHot.one_hot_encode xy.1 n_chars;
  targets ← view xy.2 (n_seqs * n_steps);
  let r := fit lib (net sh.1) x sh.2 targets in
  m ← modulo counter print_every;
  if decide (m = 0) then
    val_losses ← validate r.1.1 val_data;
    Ok ({| net := r.1.1; counter := counter;
           printed := printed sh.1 ++ [(e + 1, counter, r.2, mean lib val_losses)] |},
        r.1.2)
  else
    Ok ({| net := r.1.1; counter := counter; printed := printed sh.1 |}, r.1.2).

(** One epoch: [h = net.init_hidden(n_seqs)], then the loop over
    [get_batches(data, n_seqs, n_steps)]. *)
Definition train_epoch (data val_data : list Z) (s : progress P L) (e : nat)
  : result (progress P L) :=
  let h := init_hidden lib (net s) n_seqs in
  bs ← Batcher.get_batches data n_seqs n_steps;
  sh ← for_state (train_batch val_data e) bs (s, h);
  Ok sh.1.

(** [train(net, data, epochs, n_seqs, n_steps, ..., print_every)]; [val_idx]
    is [int(len(data)*(1-val_frac))], a floating-point computation taken as
    given. The result is the trained network and the lines printed. *)
Definition train (p : P) (data : list Z) (epochs val_idx : nat)
  : result (P * list (nat * nat * L * L)) :=
  let val_data := drop val_idx data in
  let data := take val_idx data in
  s ← for_state (train_epoch data val_data) (seq 0 epochs)
        {| net := p; counter := 0; printed := [] |};
  Ok (net s, printed s).

End Train.

End Train.

(** ** Text generation in lstm-model-1.ipynb

    The trained Keras model is the field [predict] of [model]. *)

Module Generate.

(** [random.randint(a, b)], with the draw of the generator made explicit:
    an empty range raises. *)
Definition randint (a b : Z) (r : nat) : result Z :=
  if decide (b < a)%Z then Raise ValueError
  else Ok (a + Z.of_nat r `mod` (b - a + 1))%Z.

(** [x_pred[i, t, k] = 1.] *)
Definition store (x : list matrix) (i t k : nat) : result (list matrix) :=
  match x !! i with
  | None => Raise IndexError
  | Some m =>
      match m !! t with
      | None => Raise IndexError
      | Some row =>
          if decide (k < length row)
          then Ok (<[i := <[t := <[k := 1%Z]> row]> m]> x)
          else Raise IndexError
      end
  end.

(** [np.argmax(preds)]: the first position of the maximum. *)
Fixpoint argmax_from (best : Q) (besti i : nat) (l : list Q) : nat :=
  match l with
  | [] => besti
  | v :: l' => if decide (best < v)%Q then argmax_from v i (S i) l'
               else argmax_from best besti (S i) l'
  end.

Definition argmax (l : list Q) : result nat :=
  match l with
  | [] => Raise ValueError
  | v :: l' => Ok (argmax_from v 0 1 l')
  end.

Record model : Type := {
  (* model.predict(x_pred, verbose=0) *)
  predict : list matrix → list (list Q)
}.

(** The number of symbols generated: [for i in range(400)]. *)
Definition n_generated : nat := 400.

Section Generate.
Variable m : model.
Variables (max_len : nat) (chars : list char).

(** The body of the loop up to [next_char]. *)
Definition next_char (sentence : list char) : result char :=
  let x_pred := [OneHot.zeros max_len (length chars)] in
  x_pred ← for_state (λ x (tc : nat * char),
              k ← getitem (char_indices chars) tc.2;
              store x 0 tc.1 k) (enumerate sentence) x_pred;
  preds ← match predict m x_pred with
          | [] => Raise IndexError
          | row :: _ => Ok row
          end;
  next_index ← argmax preds;
  getitem (indices_char chars) next_index.

(** One turn of the loop on [(generated, sentence)]:
    [generated += next_char; sentence = sentence[1:] + next_char]. *)
Definition generate_step (gs : list char * list char) (i : nat)
  : result (list char * list char) :=
  c ← next_char gs.2;
  Ok (gs.1 ++ [c], drop 1 gs.2 ++ [c]).

End Generate.

(** The generation cell: [r] is the draw behind [random.randint]. *)
Definition generate (m : model) (text : list char) (r : nat) : result (list char) :=
  let max_len := Keras.max_len in
  let chars := sorted_chars text in
  start_index ← randint 0 (Z.of_nat (length text) - Z.of_nat max_len - 1) r;
  let start_index := Z.to_nat start_index in
  let sentence := drop start_index (take (start_index + max_len) text) in
  gs ← for_state (generate_step m max_len chars) (seq 0 n_generated)
         (sentence, sentence);
  Ok gs.1.

End Generate.

(** * Properties *)

(** ** Loops and arrays *)

Section Loops.
Context {A B : Type}.

Lemma for_each_Ok (f : A → result B) (g : A → B) (xs : list A) :
  (∀ x, x ∈ xs → f x = Ok (g x)) → for_each f xs = Ok (g <$> xs).
Proof.
  induction xs as [|x xs IH]; intros Hf; [done|].
  cbn. rewrite Hf by left. cbn.
  rewrite IH; [done|]. intros y Hy. apply Hf. by right.
Qed.

Lemma bind_Ok (a : A) (f : A → result B) : Ok a ≫= f = f a.
Proof. done. Qed.

Lemma for_state_cons (f : B → A → result B) (x : A) (xs : list A) (s : B) :
  for_state f (x :: xs) s = f s x ≫= for_state f xs.
Proof. done. Qed.

Lemma for_each_fmap_Ok {C : Type} (f : A → result B) (h : C → A) (g : C → B)
    (ks : list C) :
  (∀ k, k ∈ ks → f (h k) = Ok (g k)) → for_each f (h <$> ks) = Ok (g <$> ks).
Proof.
  induction ks as [|k ks IH]; intros Hf; [done|].
  cbn. rewrite Hf by left. cbn.
  rewrite IH; [done|]. intros y Hy. apply Hf. by right.
Qed.
End Loops.

Section Chunks.
Context {A : Type}.
Implicit Types l : list A.

Lemma length_chunks k w l : length (chunks k w l) = k.
Proof. revert l. induction k as [|k IH]; intros l; cbn; [done|]. by rewrite IH. Qed.

Lemma chunks_lookup k w l i :
  i < k → chunks k w l !! i = Some (take w (drop (i * w) l)).
Proof.
  revert l i. induction k as [|k IH]; intros l i Hi; [lia|].
  destruct i as [|i]; cbn.
  - done.
  - rewrite IH by lia. by rewrite drop_drop.
Qed.

Lemma chunks_row_length k w l r :
  k * w ≤ length l → r ∈ chunks k w l → length r = w.
Proof.
  intros Hl [i Hi]%list_elem_of_lookup.
  assert (i < k) as Hik.
  { apply lookup_lt_Some in Hi. by rewrite length_chunks in Hi. }
  rewrite chunks_lookup in Hi by done. injection Hi as <-.
  rewrite length_take, length_drop.
  assert (i * w + w ≤ k * w) by nia. lia.
Qed.

Lemma shape1_chunks k w l : 0 < k → k * w ≤ length l → shape1 (chunks k w l) = w.
Proof.
  intros Hk Hl. destruct k as [|k]; [lia|]. cbn.
  rewrite length_take.
  assert (w ≤ S k * w) by nia. lia.
Qed.

End Chunks.

(** ** Mini-batches *)

Section Targets.
Import Batcher.
Variables (T : nat) (x : matrix).
Hypothesis HT : 1 ≤ T.
Hypothesis Hx : Forall (λ r, length r = T) x.

Lemma assign_init_shape1 :
  x ≠ [] → shape1 (assign_init (zeros_like x) (cols_from x 1)) = T.
Proof.
  destruct x as [|xr x']; [done|]. intros _. cbn.
  apply Forall_cons_1 in Hx as [Hr _].
  rewrite length_app, !length_drop, length_fmap. lia.
Qed.

Lemma assign_rows (c : list Z) :
  zip_with (λ yr v, take (length yr - 1) yr ++ [v])
    (assign_init (zeros_like x) (cols_from x 1)) c = shifted x c.
Proof.
  unfold assign_init, zeros_like, cols_from, shifted. clear HT.
  revert c. induction Hx as [|xr x' Hr Hx' IH]; intros c; [done|].
  destruct c as [|v c]; [done|]. cbn. f_equal; [|by apply IH].
  f_equal. apply take_app_length'.
  rewrite length_app, !length_drop, length_fmap. lia.
Qed.

Lemma assign_shifted (c : list Z) :
  x ≠ [] →
  assign_last (assign_init (zeros_like x) (cols_from x 1)) c = Ok (shifted x c).
Proof.
  intros Hne. unfold assign_last.
  rewrite assign_init_shape1 by done.
  destruct (decide (T = 0)); [lia|]. by rewrite assign_rows.
Qed.

Lemma shifted_init (c : list Z) :
  length c = length x → init_cols (shifted x c) = cols_from x 1.
Proof.
  unfold init_cols, shifted, cols_from. clear HT Hx.
  revert c. induction x as [|xr x' IH]; intros c Hc; [done|].
  destruct c as [|v c]; [done|]. cbn. f_equal.
  - rewrite length_app. cbn. apply take_app_length'. lia.
  - apply IH. cbn in Hc. lia.
Qed.

Lemma shifted_width (c : list Z) :
  Forall (λ r, length r = T) (shifted x c).
Proof.
  unfold shifted. revert c.
  induction Hx as [|xr x' Hr Hx' IH]; intros c; [constructor|].
  destruct c as [|v c]; [constructor|]. cbn. constructor; [|by apply IH].
  rewrite length_app, length_drop. cbn. lia.
Qed.

Lemma shifted_last (c : list Z) :
  x ≠ [] → length c = length x → last_col (shifted x c) = Ok c.
Proof.
  intros Hne Hc. unfold last_col, col.
  assert (shape1 (shifted x c) = T) as ->.
  { pose proof (shifted_width c) as Hw.
    destruct x as [|xr x']; [done|]. destruct c as [|v c]; [done|].
    cbn in *. by apply Forall_cons_1 in Hw as [-> _]. }
  destruct (decide (T = 0)); [lia|].
  destruct (decide (T - 1 < T)); [|lia]. f_equal.
  unfold shifted. clear Hne. revert c Hc.
  induction Hx as [|xr x' Hr Hx' IH]; intros c Hc.
  - by destruct c.
  - destruct c as [|v c]; [done|]. cbn. f_equal.
    + rewrite lookup_app_r by (rewrite length_drop; lia).
      rewrite length_drop, Hr. by replace (T - 1 - (T - 1)) with 0 by lia.
    + apply IH; [done|]. cbn in Hc. lia.
Qed.
End Targets.

Lemma ceil_div_mul (a b : nat) : 0 < b → (a * b + b - 1) / b = a.
Proof.
  intros Hb. symmetry. apply (Nat.div_unique _ _ _ (b - 1)); lia.
Qed.

Section GetBatches.
Import Batcher.
Variables (arr : list Z) (n_seqs n_steps : nat).
Hypothesis Hseqs : 1 ≤ n_seqs.
Hypothesis Hsteps : 1 ≤ n_steps.

Let nb := length arr / (n_seqs * n_steps).
Let L := nb * n_steps.
Let R := rows_of arr n_seqs n_steps.

Lemma truncated_length :
  length (take (nb * (n_seqs * n_steps)) arr) = nb * (n_seqs * n_steps).
Proof.
  rewrite length_take. apply Nat.min_l. subst nb.
  rewrite Nat.mul_comm. apply Nat.Div0.mul_div_le.
Qed.

Lemma reshape_truncated :
  reshape_rows n_seqs (take (nb * (n_seqs * n_steps)) arr) = Ok R.
Proof.
  unfold reshape_rows. rewrite truncated_length.
  destruct (decide (n_seqs = 0)); [lia|].
  assert (nb * (n_seqs * n_steps) = L * n_seqs) as HL by (subst L; lia).
  assert ((nb * (n_seqs * n_steps)) `mod` n_seqs = 0) as ->.
  { rewrite HL. apply Nat.Div0.mod_mul. }
  assert ((nb * (n_seqs * n_steps)) / n_seqs = L) as ->.
  { rewrite HL. apply Nat.div_mul. lia. }
  destruct (decide (0 = 0)); done.
Qed.

Lemma rows_length : length R = n_seqs.
Proof. apply length_chunks. Qed.

Lemma rows_width : Forall (λ r, length r = L) R.
Proof.
  apply Forall_forall. intros r Hr.
  apply (chunks_row_length n_seqs L (take (nb * (n_seqs * n_steps)) arr));
    [|exact Hr].
  rewrite truncated_length. subst L. lia.
Qed.

Lemma rows_shape1 : shape1 R = L.
Proof.
  apply (shape1_chunks n_seqs L (take (nb * (n_seqs * n_steps)) arr)); [lia|].
  rewrite truncated_length. subst L. lia.
Qed.

Lemma rows_nonempty : R ≠ [].
Proof.
  intros HR. pose proof rows_length as Hl. rewrite HR in Hl. cbn in Hl. lia.
Qed.

Lemma range_rows : range L n_steps = Ok ((λ k, k * n_steps) <$> seq 0 nb).
Proof.
  unfold range. destruct (decide (n_steps = 0)); [lia|].
  subst L. by rewrite ceil_div_mul by lia.
Qed.

Lemma slice_width k :
  k < nb → Forall (λ r, length r = n_steps) (cols R (k * n_steps) (k * n_steps + n_steps)).
Proof.
  intros Hk. unfold cols. apply Forall_fmap.
  eapply Forall_impl; [apply rows_width|]. intros r Hr. cbn.
  rewrite length_drop, length_take, Hr.
  assert (k * n_steps + n_steps ≤ L) by (subst L; nia). lia.
Qed.

Lemma slice_nonempty k : cols R (k * n_steps) (k * n_steps + n_steps) ≠ [].
Proof.
  unfold cols. intros Hc%fmap_nil_inv. by apply rows_nonempty.
Qed.

(** The column read of the [try] block fails exactly on the last slice. *)
Lemma col_next k :
  k < nb →
  col R (k * n_steps + n_steps) =
    if decide (S k < nb)
    then Ok ((λ r, default 0%Z (r !! (k * n_steps + n_steps))) <$> R)
    else Raise IndexError.
Proof.
  intros Hk. unfold col. rewrite rows_shape1.
  destruct (decide (S k < nb)).
  - assert (k * n_steps + n_steps < L) by (subst L; nia).
    destruct (decide (k * n_steps + n_steps < L)); [done | lia].
  - assert (k * n_steps + n_steps = L) by (subst L; nia).
    destruct (decide (k * n_steps + n_steps < L)); [lia | done].
Qed.

Lemma col_first :
  0 < nb → col R 0 = Ok ((λ r, default 0%Z (r !! 0)) <$> R).
Proof.
  intros Hnb. unfold col. rewrite rows_shape1.
  assert (0 < L) by (subst L; nia).
  destruct (decide (0 < L)); [done | lia].
Qed.

Lemma targets_closed k :
  k < nb →
  targets R (cols R (k * n_steps) (k * n_steps + n_steps)) (k * n_steps) n_steps
  = Ok (batch_at R n_steps nb k).2.
Proof.
  intros Hk. unfold targets, targets_wrapped, batch_at, next_index.
  rewrite col_next by done. cbn.
  destruct (decide (S k < nb)).
  - rewrite (assign_shifted n_steps); auto using slice_width, slice_nonempty.
  - rewrite col_first by lia. cbn.
    rewrite (assign_shifted n_steps); auto using slice_width, slice_nonempty.
Qed.

(** The generator in closed form. *)
Lemma get_batches_closed :
  get_batches arr n_seqs n_steps = Ok (batch_at R n_steps nb <$> seq 0 nb).
Proof.
  unfold get_batches, floordiv.
  destruct (decide (n_seqs * n_steps = 0)); [nia|]. cbn.
  fold nb. rewrite reshape_truncated. cbn.
  rewrite rows_shape1, range_rows. cbn.
  apply for_each_fmap_Ok. intros k Hk%elem_of_seq.
  rewrite targets_closed by lia. done.
Qed.

Lemma length_batches : length (batch_at R n_steps nb <$> seq 0 nb) = nb.
Proof. by rewrite length_fmap, length_seq. Qed.

Lemma lookup_batches k b :
  (batch_at R n_steps nb <$> seq 0 nb) !! k = Some b →
  k < nb ∧ b = batch_at R n_steps nb k.
Proof.
  rewrite list_lookup_fmap. intros Hb.
  destruct (seq 0 nb !! k) as [k'|] eqn:Hk; [|done].
  apply lookup_seq in Hk as [-> Hk]. cbn in Hb. by injection Hb as <-.
Qed.

(** Cell [(i, c)] of the reshaped corpus is cell [i * L + c] of the corpus. *)
Lemma rows_cell i c :
  i < n_seqs → c < L → (R !! i ≫= (.!! c)) = arr !! (i * L + c).
Proof.
  intros Hi Hc. subst R. unfold rows_of. fold nb. fold L.
  rewrite chunks_lookup by done. cbn.
  rewrite lookup_take_lt, lookup_drop by done.
  apply lookup_take_lt. subst L. nia.
Qed.

Lemma slice_cell k i j :
  i < n_seqs → k < nb → j < n_steps →
  (cols R (k * n_steps) (k * n_steps + n_steps) !! i ≫= (.!! j))
  = arr !! (i * L + k * n_steps + j).
Proof.
  intros Hi Hk Hj. rewrite <- Nat.add_assoc, <- rows_cell; [|done|subst L; nia].
  unfold cols. rewrite list_lookup_fmap.
  destruct (R !! i) as [r|]; [|done]. cbn.
  rewrite lookup_drop. apply lookup_take_lt. lia.
Qed.

Lemma slice_first_col k :
  k < nb →
  col (cols R (k * n_steps) (k * n_steps + n_steps)) 0
  = Ok ((λ r, default 0%Z (r !! (k * n_steps))) <$> R).
Proof.
  intros Hk. unfold col.
  pose proof (slice_width k Hk) as Hw. pose proof (slice_nonempty k) as Hne.
  destruct (cols R (k * n_steps) (k * n_steps + n_steps)) as [|r rs] eqn:Hc; [done|].
  apply Forall_cons_1 in Hw as [Hr _]. cbn [shape1]. rewrite Hr.
  destruct (decide (0 < n_steps)); [|lia]. f_equal.
  rewrite <- Hc. unfold cols. rewrite <- list_fmap_compose.
  apply list_fmap_ext. intros _ r' _. cbn.
  rewrite lookup_drop, Nat.add_0_r, lookup_take_lt by lia. done.
Qed.

Lemma rows_of_truncated (arr' : list Z) :
  length arr' = length arr →
  take (nb * (n_seqs * n_steps)) arr' = take (nb * (n_seqs * n_steps)) arr →
  rows_of arr' n_seqs n_steps = R.
Proof.
  intros Hlen Htake. subst R. unfold rows_of. rewrite Hlen. fold nb.
  by rewrite Htake.
Qed.
End GetBatches.

Lemma chunks_nil {A : Type} (k : nat) : chunks k 0 (@nil A) = replicate k [].
Proof. induction k as [|k IH]; cbn; [done|]. by rewrite IH. Qed.

(** C1. For [n_seqs >= 1] and [n_steps >= 1], every pair [(x, y)] yielded by
    [get_batches] is such that [y[:, :-1]] is [x[:, 1:]]; the handler of
    [IndexError] runs exactly on the last slice, that is when
    [n + n_steps] is the length of a row; before the last slice the final
    column of [y] is the first column of the next slice; on the last slice
    it is the first column of the reshaped corpus. *)
Theorem get_batches_targets (arr : list Z) (n_seqs n_steps : nat) :
  1 ≤ n_seqs → 1 ≤ n_steps →
  ∃ bs, Batcher.get_batches arr n_seqs n_steps = Ok bs ∧
    let rows := Batcher.rows_of arr n_seqs n_steps in
    ∀ k x y, bs !! k = Some (x, y) →
      let n := k * n_steps in
      Batcher.targets rows x n n_steps = Ok y ∧
      init_cols y = cols_from x 1 ∧
      (Batcher.takes_handler rows n n_steps = true ↔ S k = length bs) ∧
      (S k = length bs ↔ n + n_steps = shape1 rows) ∧
      (S k < length bs →
         ∃ x' y' c, bs !! S k = Some (x', y') ∧
           last_col y = Ok c ∧ col x' 0 = Ok c ∧ col rows (n + n_steps) = Ok c) ∧
      (S k = length bs →
         ∃ c, last_col y = Ok c ∧ col rows 0 = Ok c ∧
           Batcher.targets rows x n n_steps
           = Batcher.targets_wrapped rows x (zeros_like x)).
Proof.
  intros Hseqs Hsteps. eexists. split; [by apply get_batches_closed|].
  intros rows k x y Hb n.
  apply lookup_batches in Hb as [Hk Hb].
  set (nb := length arr / (n_seqs * n_steps)) in *.
  rewrite length_batches. fold nb.
  pose proof (slice_width arr n_seqs n_steps Hseqs Hsteps k Hk) as Hw.
  pose proof (slice_nonempty arr n_seqs n_steps Hseqs Hsteps k) as Hne.
  pose proof (rows_length arr n_seqs n_steps) as HR.
  pose proof (col_next arr n_seqs n_steps Hseqs Hsteps k Hk) as Hcol.
  assert (x = cols rows n (n + n_steps)) as Hx by (by injection Hb).
  assert (y = Batcher.shifted x
            ((λ r, default 0%Z (r !! Batcher.next_index n_steps nb k)) <$> rows))
    as Hy by (by injection Hb as -> ->).
  fold rows n nb in Hw, Hne, HR, Hcol. rewrite <- Hx in Hw, Hne.
  assert (length ((λ r, default 0%Z (r !! Batcher.next_index n_steps nb k)) <$> rows)
          = length x) as Hlen.
  { rewrite Hx. unfold cols. by rewrite !length_fmap. }
  split; [|split; [|split; [|split; [|split]]]].
  - rewrite Hx, Hy, Hx. subst n rows nb.
    by rewrite (targets_closed arr n_seqs n_steps Hseqs Hsteps k Hk).
  - rewrite Hy. by apply shifted_init.
  - unfold Batcher.takes_handler. rewrite Hcol.
    destruct (decide (S k < nb)); split; intros; (done || lia).
  - subst rows n nb. rewrite rows_shape1 by done. split; intros; nia.
  - intros HSk. unfold Batcher.next_index in Hy, Hlen.
    destruct (decide (S k < nb)); [|lia].
    exists (cols rows (S k * n_steps) (S k * n_steps + n_steps)),
      (Batcher.batch_at rows n_steps nb (S k)).2,
      ((λ r, default 0%Z (r !! (S k * n_steps))) <$> rows).
    assert (S k * n_steps = n + n_steps) as HS by (subst n; lia).
    split; [|split; [|split]].
    + rewrite list_lookup_fmap, lookup_seq_lt by done. done.
    + rewrite Hy, HS. by apply (shifted_last n_steps).
    + subst rows nb.
      by rewrite (slice_first_col arr n_seqs n_steps Hseqs Hsteps (S k)).
    + by rewrite HS.
  - intros HSk. unfold Batcher.next_index in Hy, Hlen.
    destruct (decide (S k < nb)); [lia|].
    eexists. split; [|split].
    + rewrite Hy. by apply (shifted_last n_steps).
    + subst rows nb. by rewrite col_first by (done || lia).
    + unfold Batcher.targets. by rewrite Hcol.
Qed.

Lemma get_batches_targets_witness :
  ∃ bs, Batcher.get_batches [1;2;3;4;5;6;7;8;9;10;11;12;13]%Z 2 3 = Ok bs ∧
    let rows := Batcher.rows_of [1;2;3;4;5;6;7;8;9;10;11;12;13]%Z 2 3 in
    ∀ k x y, bs !! k = Some (x, y) →
      let n := k * 3 in
      Batcher.targets rows x n 3 = Ok y ∧
      init_cols y = cols_from x 1 ∧
      (Batcher.takes_handler rows n 3 = true ↔ S k = length bs) ∧
      (S k = length bs ↔ n + 3 = shape1 rows) ∧
      (S k < length bs →
         ∃ x' y' c, bs !! S k = Some (x', y') ∧
           last_col y = Ok c ∧ col x' 0 = Ok c ∧ col rows (n + 3) = Ok c) ∧
      (S k = length bs →
         ∃ c, last_col y = Ok c ∧ col rows 0 = Ok c ∧
           Batcher.targets rows x n 3
           = Batcher.targets_wrapped rows x (zeros_like x)).
Proof.
  apply (get_batches_targets [1;2;3;4;5;6;7;8;9;10;11;12;13]%Z 2 3); lia.
Defined.

(** C2. For [n_seqs >= 1] and [n_steps >= 1], [get_batches] yields exactly
    [len(arr) // (n_seqs * n_steps)] pairs; the [k]-th input has [n_seqs]
    rows of [n_steps] cells and is the column slice
    [[k * n_steps, k * n_steps + n_steps)] of the truncated corpus reshaped
    into [n_seqs] rows; each of its cells is a cell of the corpus before the
    truncation point, and the pairs do not depend on what comes after that
    point. *)
Theorem get_batches_inputs (arr : list Z) (n_seqs n_steps : nat) :
  1 ≤ n_seqs → 1 ≤ n_steps →
  let nb := length arr / (n_seqs * n_steps) in
  let kept := nb * (n_seqs * n_steps) in
  ∃ bs rows,
    Batcher.get_batches arr n_seqs n_steps = Ok bs ∧
    reshape_rows n_seqs (take kept arr) = Ok rows ∧
    length bs = nb ∧
    (∀ k x y, bs !! k = Some (x, y) →
       x = cols rows (k * n_steps) (k * n_steps + n_steps) ∧
       length x = n_seqs ∧
       Forall (λ r, length r = n_steps) x ∧
       ∀ i j, i < n_seqs → j < n_steps →
         i * (nb * n_steps) + k * n_steps + j < kept ∧
         (x !! i ≫= (.!! j)) = arr !! (i * (nb * n_steps) + k * n_steps + j)) ∧
    (∀ arr', length arr' = length arr → take kept arr' = take kept arr →
       Batcher.get_batches arr' n_seqs n_steps = Ok bs).
Proof.
  intros Hseqs Hsteps nb kept.
  exists (Batcher.batch_at (Batcher.rows_of arr n_seqs n_steps) n_steps nb <$> seq 0 nb),
    (Batcher.rows_of arr n_seqs n_steps).
  split; [by apply get_batches_closed|].
  split; [by apply reshape_truncated|].
  split; [apply length_batches|].
  split.
  - intros k x y [Hk Hb]%lookup_batches. fold nb in Hk.
    injection Hb as -> _.
    split; [done|]. split; [|split].
    + unfold cols. rewrite length_fmap. apply rows_length.
    + by apply slice_width.
    + intros i j Hi Hj. split; [|by apply slice_cell].
      assert (k * n_steps + j < nb * n_steps) by nia.
      assert (i * (nb * n_steps) + nb * n_steps ≤ n_seqs * (nb * n_steps)) by nia.
      subst kept. lia.
  - intros arr' Hlen Htake.
    rewrite get_batches_closed by done.
    rewrite (rows_of_truncated arr n_seqs n_steps arr') by done.
    by rewrite Hlen.
Qed.

Lemma get_batches_inputs_witness :
  let arr := [1;2;3;4;5;6;7;8;9;10;11;12;13]%Z in
  let nb := length arr / (2 * 3) in
  let kept := nb * (2 * 3) in
  ∃ bs rows,
    Batcher.get_batches arr 2 3 = Ok bs ∧
    reshape_rows 2 (take kept arr) = Ok rows ∧
    length bs = nb ∧
    (∀ k x y, bs !! k = Some (x, y) →
       x = cols rows (k * 3) (k * 3 + 3) ∧
       length x = 2 ∧
       Forall (λ r, length r = 3) x ∧
       ∀ i j, i < 2 → j < 3 →
         i * (nb * 3) + k * 3 + j < kept ∧
         (x !! i ≫= (.!! j)) = arr !! (i * (nb * 3) + k * 3 + j)) ∧
    (∀ arr', length arr' = length arr → take kept arr' = take kept arr →
       Batcher.get_batches arr' 2 3 = Ok bs).
Proof.
  apply (get_batches_inputs [1;2;3;4;5;6;7;8;9;10;11;12;13]%Z 2 3); lia.
Defined.

(** C9. A corpus shorter than one full batch ([len(arr) < n_seqs * n_steps],
    [n_seqs >= 1], [n_steps >= 1]) makes [get_batches] yield nothing and
    raise nothing: the truncated corpus is empty, its reshape into
    [n_seqs] rows of width 0 succeeds, and the loop has no iteration. *)
Theorem get_batches_short_corpus (arr : list Z) (n_seqs n_steps : nat) :
  1 ≤ n_seqs → 1 ≤ n_steps → length arr < n_seqs * n_steps →
  take (length arr / (n_seqs * n_steps) * (n_seqs * n_steps)) arr = [] ∧
  reshape_rows n_seqs [] = Ok (replicate n_seqs []) ∧
  range (shape1 (replicate n_seqs ([] : list Z))) n_steps = Ok [] ∧
  Batcher.get_batches arr n_seqs n_steps = Ok [].
Proof.
  intros Hseqs Hsteps Hshort.
  assert (length arr / (n_seqs * n_steps) = 0) as Hnb by (by apply Nat.div_small).
  split; [by rewrite Hnb|]. split; [|split].
  - unfold reshape_rows. destruct (decide (n_seqs = 0)); [lia|]. cbn.
    rewrite Nat.Div0.mod_0_l, Nat.Div0.div_0_l.
    destruct (decide (0 = 0)); [|done]. by rewrite chunks_nil.
  - unfold range. destruct (decide (n_steps = 0)); [lia|].
    destruct n_seqs as [|m]; [lia|]. cbn [replicate shape1 length].
    by rewrite Nat.div_small by lia.
  - rewrite get_batches_closed by done. by rewrite Hnb.
Qed.

Lemma get_batches_short_corpus_witness :
  take (length [1;2;3;4;5]%Z / (2 * 3) * (2 * 3)) [1;2;3;4;5]%Z = [] ∧
  reshape_rows 2 [] = Ok (replicate 2 []) ∧
  range (shape1 (replicate 2 ([] : list Z))) 3 = Ok [] ∧
  Batcher.get_batches [1;2;3;4;5]%Z 2 3 = Ok [].
Proof.
  apply (get_batches_short_corpus [1;2;3;4;5]%Z 2 3); cbn; lia.
Defined.

(** ** One-hot encoding *)

Section OneHotProofs.
Import OneHot.
Variable n_labels : nat.

(** The vector with a single one, at position [v]. *)
Let unit_vec (v : Z) : list Z := <[Z.to_nat v := 1%Z]> (replicate n_labels 0%Z).

Lemma norm_index_in_range (v : Z) :
  (0 ≤ v < Z.of_nat n_labels)%Z → norm_index n_labels v = Ok (Z.to_nat v).
Proof. intros Hv. unfold norm_index. by destruct (decide _). Qed.

Lemma set_cell_next (v : Z) (filled rest : matrix) :
  (0 ≤ v < Z.of_nat n_labels)%Z →
  set_cell 1 (filled ++ replicate n_labels 0%Z :: rest) (length filled, v)
  = Ok ((filled ++ [unit_vec v]) ++ rest).
Proof.
  intros Hv. unfold set_cell. cbn [fst snd].
  rewrite lookup_app_r, Nat.sub_diag by done. cbn [lookup list_lookup].
  rewrite length_replicate, norm_index_in_range by done.
  rewrite bind_Ok. f_equal.
  rewrite insert_app_r_alt, Nat.sub_diag by done. by rewrite <- app_assoc.
Qed.

Lemma set_cells_from (flat : list Z) (filled : matrix) :
  Forall (λ v, (0 ≤ v < Z.of_nat n_labels)%Z) flat →
  for_state (set_cell 1) (zip (seq (length filled) (length flat)) flat)
    (filled ++ zeros (length flat) n_labels)
  = Ok (filled ++ (unit_vec <$> flat)).
Proof.
  intros Hflat. revert filled.
  induction Hflat as [|v flat Hv _ IH]; intros filled; [done|].
  change (zip (seq (length filled) (length (v :: flat))) (v :: flat))
    with ((length filled, v) :: zip (seq (S (length filled)) (length flat)) flat).
  change (zeros (length (v :: flat)) n_labels)
    with (replicate n_labels 0%Z :: zeros (length flat) n_labels).
  rewrite for_state_cons, set_cell_next, bind_Ok by done.
  specialize (IH (filled ++ [unit_vec v])).
  rewrite length_app in IH. cbn [length] in IH.
  rewrite Nat.add_1_r in IH. rewrite IH. by rewrite <- app_assoc.
Qed.

Lemma set_cells_one_hot (flat : list Z) :
  Forall (λ v, (0 ≤ v < Z.of_nat n_labels)%Z) flat →
  set_cells (zeros (length flat) n_labels) (seq 0 (length flat)) flat 1
  = Ok (unit_vec <$> flat).
Proof.
  intros Hflat. unfold set_cells. rewrite length_seq.
  destruct (decide (length flat = length flat)); [|done].
  by apply (set_cells_from flat []).
Qed.

Lemma chunks_concat {A B : Type} (f : A → B) (c : nat) (a : list (list A)) :
  Forall (λ r, length r = c) a →
  chunks (length a) c (f <$> concat a) = (λ r : list A, f <$> r) <$> a.
Proof.
  induction 1 as [|r a Hr _ IH]; [done|]. cbn.
  rewrite fmap_app. f_equal.
  - apply take_app_length'. by rewrite length_fmap.
  - rewrite drop_app_length' by (by rewrite length_fmap). done.
Qed.

Lemma length_concat_rect {A : Type} (c : nat) (a : list (list A)) :
  Forall (λ r, length r = c) a → length (concat a) = length a * c.
Proof.
  induction 1 as [|r a Hr _ IH]; [done|]. cbn.
  rewrite length_app, IH. lia.
Qed.

Lemma shape1_rect {A : Type} (c : nat) (a : list (list A)) :
  Forall (λ r, length r = c) a → length a * shape1 a = length a * c.
Proof. intros Ha. destruct Ha as [|r a Hr Ha]; [done|]. cbn [shape1]. by rewrite Hr. Qed.

(** The encoder in closed form. *)
Lemma one_hot_encode_closed (arr : matrix) (c : nat) :
  Forall (λ r, length r = c) arr →
  Forall (Forall (λ v, (0 ≤ v < Z.of_nat n_labels)%Z)) arr →
  one_hot_encode arr n_labels = Ok ((λ r : list Z, unit_vec <$> r) <$> arr).
Proof.
  intros Hrect Hrange. unfold one_hot_encode.
  rewrite (shape1_rect c), <- (length_concat_rect c) by done.
  unfold zeros at 2. rewrite length_replicate.
  rewrite set_cells_one_hot by (by apply Forall_concat). cbn.
  destruct Hrect as [|r a Hr Ha]; [done|].
  cbn [shape1]. rewrite Hr.
  by rewrite (chunks_concat unit_vec c (r :: a)) by (by constructor).
Qed.
End OneHotProofs.

(** C4. For a two-dimensional array [arr] with entries in [[0, n_labels)],
    [one_hot_encode(arr, n_labels)] has the shape of [arr] extended by
    [n_labels]; its cell [(i, j, k)] is 1 when [arr[i][j] = k] and 0
    otherwise: each innermost vector is all zeros except for a single one at
    the position given by the input. *)
Theorem one_hot_encode_cells (arr : matrix) (n_labels c : nat) :
  Forall (λ r, length r = c) arr →
  Forall (Forall (λ v, (0 ≤ v < Z.of_nat n_labels)%Z)) arr →
  ∃ out, OneHot.one_hot_encode arr n_labels = Ok out ∧
    length out = length arr ∧
    Forall (λ m, length m = c ∧ Forall (λ vec, length vec = n_labels) m) out ∧
    ∀ i j v, arr !! i ≫= (.!! j) = Some v →
      ∃ vec, out !! i ≫= (.!! j) = Some vec ∧
        vec = <[Z.to_nat v := 1%Z]> (replicate n_labels 0%Z) ∧
        ∀ k, k < n_labels →
          vec !! k = Some (if decide (Z.of_nat k = v) then 1%Z else 0%Z).
Proof.
  intros Hrect Hrange. eexists. split; [by eapply one_hot_encode_closed|].
  split; [by rewrite length_fmap|]. split.
  - apply Forall_fmap. eapply Forall_impl; [exact Hrect|].
    intros r Hr. cbn. rewrite length_fmap. split; [done|].
    apply Forall_fmap, Forall_true. intros v. cbn.
    by rewrite length_insert, length_replicate.
  - intros i j v Hv. rewrite list_lookup_fmap.
    destruct (arr !! i) as [r|] eqn:Hr; [|done]. cbn in Hv |- *.
    rewrite list_lookup_fmap, Hv. cbn. eexists. split; [done|]. split; [done|].
    assert (0 ≤ v < Z.of_nat n_labels)%Z as Hin.
    { eapply Forall_lookup_1 in Hrange; [|exact Hr].
      eapply Forall_lookup_1 in Hrange; [|exact Hv]. done. }
    intros k Hk. destruct (decide (Z.of_nat k = v)) as [<-|Hne].
    + rewrite Nat2Z.id. apply list_lookup_insert_eq. by rewrite length_replicate.
    + rewrite list_lookup_insert_ne by lia. by apply lookup_replicate_2.
Qed.

Lemma one_hot_encode_cells_witness :
  ∃ out, OneHot.one_hot_encode [[0;2];[1;1]]%Z 3 = Ok out ∧
    length out = length [[0;2];[1;1]]%Z ∧
    Forall (λ m, length m = 2 ∧ Forall (λ vec, length vec = 3) m) out ∧
    ∀ i j v, [[0;2];[1;1]]%Z !! i ≫= (.!! j) = Some v →
      ∃ vec, out !! i ≫= (.!! j) = Some vec ∧
        vec = <[Z.to_nat v := 1%Z]> (replicate 3 0%Z) ∧
        ∀ k, k < 3 →
          vec !! k = Some (if decide (Z.of_nat k = v) then 1%Z else 0%Z).
Proof.
  apply (one_hot_encode_cells [[0;2];[1;1]]%Z 3 2).
  - repeat constructor.
  - repeat constructor; lia.
Defined.

(** ** Vocabulary *)

Section Dict.
Context `{Countable K} {V : Type}.
Implicit Types (pairs : list (K * V)) (m : gmap K V).

Let put m (kv : K * V) : gmap K V := <[kv.1 := kv.2]> m.

Lemma foldl_insert_inv pairs m k v :
  foldl put m pairs !! k = Some v → (k, v) ∈ pairs ∨ m !! k = Some v.
Proof.
  revert m. induction pairs as [|[k' v'] pairs IH]; intros m; cbn; [auto|].
  intros [Hin|Hm]%IH; [left; by right|].
  unfold put in Hm. cbn in Hm.
  destruct (decide (k' = k)) as [->|Hne].
  - rewrite lookup_insert_eq in Hm. injection Hm as ->. left. by left.
  - rewrite lookup_insert_ne in Hm by done. by right.
Qed.

Lemma foldl_insert_is_Some pairs m k :
  k ∈ pairs.*1 ∨ is_Some (m !! k) → is_Some (foldl put m pairs !! k).
Proof.
  revert m. induction pairs as [|[k' v'] pairs IH]; intros m; cbn.
  - intros [Hin|Hm]; [by apply elem_of_nil in Hin | done].
  - intros [Hin|Hm]; apply IH.
    + apply elem_of_cons in Hin as [->|Hin]; [right|by left].
      unfold put. cbn. by rewrite lookup_insert_eq.
    + right. unfold put. cbn.
      destruct (decide (k' = k)) as [->|Hne].
      * by rewrite lookup_insert_eq.
      * by rewrite lookup_insert_ne.
Qed.

Lemma foldl_insert_fresh pairs m k :
  k ∉ pairs.*1 → foldl put m pairs !! k = m !! k.
Proof.
  revert m. induction pairs as [|[k' v'] pairs IH]; intros m Hk; cbn; [done|].
  cbn in Hk. apply not_elem_of_cons in Hk as [Hne Hk].
  rewrite IH by done. unfold put. cbn. by rewrite lookup_insert_ne.
Qed.

Lemma foldl_insert_NoDup pairs m k v :
  NoDup pairs.*1 → (k, v) ∈ pairs → foldl put m pairs !! k = Some v.
Proof.
  revert m. induction pairs as [|[k' v'] pairs IH]; intros m Hnd Hin; cbn.
  - by apply elem_of_nil in Hin.
  - cbn in Hnd. apply NoDup_cons in Hnd as [Hk' Hnd].
    apply elem_of_cons in Hin as [[= -> ->]|Hin].
    + rewrite foldl_insert_fresh by done. unfold put. cbn.
      by rewrite lookup_insert_eq.
    + by apply IH.
Qed.

Lemma getitem_Some m k v : m !! k = Some v → getitem m k = Ok v.
Proof. intros Hm. unfold getitem. by rewrite Hm. Qed.

Lemma dict_of_inv pairs k v : dict_of pairs !! k = Some v → (k, v) ∈ pairs.
Proof. intros [?|Hm]%foldl_insert_inv; [done|]. by rewrite lookup_empty in Hm. Qed.

Lemma dict_of_is_Some pairs k : k ∈ pairs.*1 → is_Some (dict_of pairs !! k).
Proof. intros Hk. apply foldl_insert_is_Some. by left. Qed.

Lemma dict_of_NoDup pairs k v :
  NoDup pairs.*1 → dict_of pairs !! k = Some v ↔ (k, v) ∈ pairs.
Proof.
  intros Hnd. split; [apply dict_of_inv|]. by apply foldl_insert_NoDup.
Qed.
End Dict.

Section Enumerate.
Context {A : Type}.
Implicit Types xs : list A.

Lemma elem_of_enumerate xs i x : (i, x) ∈ enumerate xs ↔ xs !! i = Some x.
Proof.
  unfold enumerate. rewrite list_elem_of_lookup. split.
  - intros [j Hj]. apply lookup_zip_with_Some in Hj as (i' & x' & [= -> ->] & Hi & Hx).
    apply lookup_seq in Hi as [-> _]. done.
  - intros Hx. exists i. apply lookup_zip_with_Some. exists i, x.
    split; [done|]. split; [|done].
    apply lookup_seq. split; [done|]. by apply lookup_lt_Some in Hx.
Qed.

Lemma enumerate_keys xs : (enumerate xs).*1 = seq 0 (length xs).
Proof. unfold enumerate. apply fst_zip. by rewrite length_seq. Qed.

Lemma enumerate_values xs : (enumerate xs).*2 = xs.
Proof. unfold enumerate. apply snd_zip. by rewrite length_seq. Qed.
End Enumerate.

Section VocabProofs.
Implicit Types (chars text : list char).

Lemma swapped_keys chars :
  ((λ kv : nat * char, (kv.2, kv.1)) <$> enumerate chars).*1 = chars.
Proof.
  rewrite <- list_fmap_compose. rewrite <- (enumerate_values chars) at 2.
  by apply list_fmap_ext.
Qed.

Lemma elem_of_swapped chars c i :
  (c, i) ∈ (λ kv : nat * char, (kv.2, kv.1)) <$> enumerate chars
  ↔ chars !! i = Some c.
Proof.
  rewrite list_elem_of_fmap, <- elem_of_enumerate. split.
  - by intros ([i' c'] & [= -> ->] & Hin).
  - intros Hin. by exists (i, c).
Qed.

Lemma int2char_lookup chars i : int2char chars !! i = chars !! i.
Proof.
  unfold int2char. destruct (chars !! i) as [c|] eqn:Hc.
  - apply dict_of_NoDup; [|by apply elem_of_enumerate].
    rewrite enumerate_keys. apply NoDup_seq.
  - destruct (dict_of (enumerate chars) !! i) as [c|] eqn:Hd; [|done].
    apply dict_of_inv, elem_of_enumerate in Hd. congruence.
Qed.

Lemma indices_char_lookup chars i : indices_char chars !! i = chars !! i.
Proof.
  unfold indices_char.
  replace ((λ kv : nat * char, (kv.1, kv.2)) <$> enumerate chars)
    with (enumerate chars); [apply int2char_lookup|].
  rewrite <- (list_fmap_id (enumerate chars)) at 1.
  apply list_fmap_ext. by intros _ [??] _.
Qed.

Lemma char2int_inv chars c i : char2int chars !! c = Some i → chars !! i = Some c.
Proof. intros Hd%dict_of_inv. by apply elem_of_swapped. Qed.

Lemma char2int_is_Some chars c : c ∈ chars → is_Some (char2int chars !! c).
Proof. intros Hc. apply dict_of_is_Some. by rewrite swapped_keys. Qed.

Lemma char2int_lookup chars c i :
  NoDup chars → char2int chars !! c = Some i ↔ chars !! i = Some c.
Proof.
  intros Hnd. unfold char2int.
  rewrite dict_of_NoDup by (by rewrite swapped_keys).
  apply elem_of_swapped.
Qed.

(** Any duplicate-free listing of the distinct symbols gives a bijection. *)
Lemma listing_bijection text chars :
  chars ≡ₚ remove_dups text → bijection text (int2char chars) (char2int chars).
Proof.
  intros Hperm.
  assert (NoDup chars) as Hnd by (rewrite Hperm; apply NoDup_remove_dups).
  assert (∀ c, c ∈ chars ↔ c ∈ text) as Hel.
  { intros c. by rewrite Hperm, elem_of_remove_dups. }
  unfold bijection. rewrite <- (Permutation_length Hperm).
  split; [|split; [|split]].
  - intros i. rewrite int2char_lookup. apply lookup_lt_is_Some.
  - intros c. rewrite <- Hel. split; [|apply char2int_is_Some].
    intros [i Hi]. apply char2int_inv in Hi. by eapply list_elem_of_lookup_2.
  - intros i [c Hc]%lookup_lt_is_Some_2. rewrite int2char_lookup, Hc. cbn.
    by apply char2int_lookup.
  - intros c [i Hi]%Hel%list_elem_of_lookup_1.
    apply (char2int_lookup chars c i Hnd) in Hi as Hci. rewrite Hci. cbn.
    by rewrite int2char_lookup.
Qed.

Lemma sorted_chars_listing text : sorted_chars text ≡ₚ remove_dups text.
Proof. apply merge_sort_Permutation. Qed.

(** The corpus encodes without a [KeyError], into indices below the size of
    the vocabulary. *)
Lemma encode_in_range text chars :
  chars ≡ₚ remove_dups text →
  ∃ arr, encode chars text = Ok arr ∧ length arr = length text ∧
    Forall (λ v, (0 ≤ v < Z.of_nat (length chars))%Z) arr.
Proof.
  intros Hperm.
  exists ((λ ch, Z.of_nat (default 0 (char2int chars !! ch))) <$> text).
  split; [|split].
  - apply for_each_Ok. intros ch Hch.
    destruct (char2int_is_Some chars ch) as [i Hi].
    { by rewrite Hperm, elem_of_remove_dups. }
    by rewrite (getitem_Some _ _ _ Hi), Hi.
  - by rewrite length_fmap.
  - apply Forall_fmap, Forall_forall. intros ch Hch. cbn.
    destruct (char2int_is_Some chars ch) as [i Hi].
    { by rewrite Hperm, elem_of_remove_dups. }
    rewrite Hi. cbn. apply char2int_inv, lookup_lt_Some in Hi. lia.
Qed.
End VocabProofs.

(** C5. The vocabulary built from a corpus is a bijection between the
    distinct symbols of the text and the indices [0 .. V-1], and the two
    dictionaries are inverse to each other; this holds for [int2char] and
    [char2int] of torch_model.ipynb, whatever order the set of symbols is
    listed in, and for [indices_char] and [char_indices] of the Keras
    notebook. *)
Theorem vocabulary_bijection (text chars : list char) :
  chars ≡ₚ remove_dups text →
  bijection text (int2char chars) (char2int chars) ∧
  bijection text (indices_char (sorted_chars text))
    (char_indices (sorted_chars text)).
Proof.
  intros Hperm. split; [by apply listing_bijection|].
  pose proof (listing_bijection text (sorted_chars text) (sorted_chars_listing text))
    as (H1 & H2 & H3 & H4).
  split; [|split; [|split]].
  - intros i. rewrite indices_char_lookup, <- int2char_lookup. apply H1.
  - apply H2.
  - intros i Hi. rewrite indices_char_lookup, <- int2char_lookup. by apply H3.
  - intros c Hc. specialize (H4 c Hc).
    change (char_indices (sorted_chars text)) with (char2int (sorted_chars text)).
    destruct (char2int _ !! c) as [i|] eqn:Hd; [|done]. cbn in H4 |- *.
    by rewrite indices_char_lookup, <- int2char_lookup.
Qed.

Lemma vocabulary_bijection_witness :
  bijection [104; 101; 108; 108; 111]%N
    (int2char [101; 104; 108; 111]%N) (char2int [101; 104; 108; 111]%N) ∧
  bijection [104; 101; 108; 108; 111]%N
    (indices_char (sorted_chars [104; 101; 108; 108; 111]%N))
    (char_indices (sorted_chars [104; 101; 108; 108; 111]%N)).
Proof.
  apply (vocabulary_bijection [104; 101; 108; 108; 111]%N [101; 104; 108; 111]%N).
  vm_compute. apply perm_swap.
Defined.

(** ** Vectorization in the Keras notebook *)

Section Windows.
Import Keras.
Variables (max_len step : nat) (text : list char).
Hypothesis Hstep : 1 ≤ step.

Let starts : list nat :=
  (λ k, k * step) <$> seq 0 ((length text - max_len + step - 1) / step).

Let sentence_at (i : nat) : list char := drop i (take (i + max_len) text).

Lemma starts_in_range i : i ∈ starts → i + max_len < length text.
Proof.
  subst starts. intros (k & -> & Hk%elem_of_seq)%list_elem_of_fmap.
  pose proof (Nat.Div0.mul_div_le (length text - max_len + step - 1) step).
  nia.
Qed.

Lemma windows_from (ks : list nat) (acc : list (list char) * list char) :
  (∀ i, i ∈ ks → i + max_len < length text) →
  for_state (λ (acc : list (list char) * list char) i,
    nc ← match text !! (i + max_len) with
         | Some c => Ok c
         | None => Raise IndexError
         end;
    Ok (acc.1 ++ [drop i (take (i + max_len) text)], acc.2 ++ [nc])) ks acc
  = Ok (acc.1 ++ (sentence_at <$> ks),
        acc.2 ++ ((λ i, default 0%N (text !! (i + max_len))) <$> ks)).
Proof.
  revert acc. induction ks as [|i ks IH]; intros acc His.
  - cbn. rewrite !app_nil_r. by destruct acc.
  - rewrite for_state_cons. cbv beta.
    destruct (lookup_lt_is_Some_2 text (i + max_len)) as [c Hc].
    { apply His. by left. }
    rewrite Hc, !bind_Ok. rewrite IH by (intros j Hj; apply His; by right).
    cbn [fst snd fmap list_fmap]. rewrite Hc. cbn [default].
    by rewrite <- !app_assoc.
Qed.

Lemma windows_closed :
  windows max_len step text
  = Ok (sentence_at <$> starts,
        (λ i, default 0%N (text !! (i + max_len))) <$> starts).
Proof.
  unfold windows, range. destruct (decide (step = 0)); [lia|].
  rewrite bind_Ok. fold starts.
  by rewrite windows_from by apply starts_in_range.
Qed.

Lemma sentence_length i : i ∈ starts → length (sentence_at i) = max_len.
Proof.
  intros Hi%starts_in_range. subst sentence_at. cbn.
  rewrite length_drop, length_take. lia.
Qed.

Lemma sentence_chars i c : c ∈ sentence_at i → c ∈ text.
Proof.
  subst sentence_at. cbn. intros Hc.
  by eapply subseteq_take, subseteq_drop.
Qed.

Lemma next_char_in_text i :
  i ∈ starts → default 0%N (text !! (i + max_len)) ∈ text.
Proof.
  intros Hi%starts_in_range.
  destruct (lookup_lt_is_Some_2 text (i + max_len) Hi) as [c Hc].
  rewrite Hc. cbn. by eapply list_elem_of_lookup_2.
Qed.
End Windows.

Section VectorizationProofs.
Import Keras.
Variables (chars : list char) (max_len : nat).
Hypothesis Hnodup : NoDup chars.

Let V := length chars.
Let zero_row : list bool := replicate V false.

(** The row written for the symbol [c]. *)
Let one_hot_row (c : char) : list bool :=
  <[default 0 (char_indices chars !! c) := true]> zero_row.

Lemma getitem_char_indices c :
  c ∈ chars →
  ∃ k, getitem (char_indices chars) c = Ok k ∧ chars !! k = Some c ∧ k < V
       ∧ default 0 (char_indices chars !! c) = k.
Proof.
  intros [k Hk]%list_elem_of_lookup_1. exists k.
  pose proof (proj2 (char2int_lookup chars c k Hnodup) Hk) as Hd.
  change (char2int chars) with (char_indices chars) in Hd.
  unfold getitem. rewrite Hd. split; [done|]. split; [done|].
  split; [|done]. by apply lookup_lt_Some in Hk.
Qed.

Lemma store3_next (x : list (list (list bool))) i (filled rest : list (list bool)) k :
  x !! i = Some (filled ++ zero_row :: rest) → k < V →
  store3 x i (length filled) k
  = Ok (<[i := (filled ++ [<[k := true]> zero_row]) ++ rest]> x).
Proof.
  intros Hx Hk. unfold store3. rewrite Hx.
  rewrite lookup_app_r, Nat.sub_diag by done. cbn [lookup list_lookup].
  subst zero_row. rewrite length_replicate.
  destruct (decide (k < V)); [|done]. do 2 f_equal.
  rewrite insert_app_r_alt, Nat.sub_diag by done. by rewrite <- app_assoc.
Qed.

Lemma fill_sentence_from (s : list char) (filled : list (list bool))
    (x : list (list (list bool))) i :
  (∀ c, c ∈ s → c ∈ chars) →
  x !! i = Some (filled ++ replicate (length s) zero_row) →
  for_state (fill_sentence chars i) (zip (seq (length filled) (length s)) s) x
  = Ok (<[i := filled ++ (one_hot_row <$> s)]> x).
Proof.
  revert filled x. induction s as [|c s IH]; intros filled x Hs Hx.
  - cbn in *. rewrite app_nil_r in *. by rewrite list_insert_id.
  - change (zip (seq (length filled) (length (c :: s))) (c :: s))
      with ((length filled, c) :: zip (seq (S (length filled)) (length s)) s).
    rewrite for_state_cons.
    change (fill_sentence chars i x (length filled, c))
      with (getitem (char_indices chars) c ≫= λ k, store3 x i (length filled) k).
    destruct (getitem_char_indices c) as (k & -> & _ & Hk & Hidx); [apply Hs; by left|].
    rewrite bind_Ok.
    rewrite (store3_next x i filled (replicate (length s) zero_row)) by done.
    rewrite bind_Ok.
    specialize (IH (filled ++ [one_hot_row c])
      (<[i:=(filled ++ [<[k:=true]> zero_row]) ++ replicate (length s) zero_row]> x)).
    rewrite length_app in IH. cbn [length] in IH. rewrite Nat.add_1_r in IH.
    rewrite IH.
    + rewrite list_insert_insert_eq. by rewrite <- app_assoc.
    + intros c' Hc'. apply Hs. by right.
    + subst one_hot_row. cbn beta. rewrite Hidx.
      apply list_lookup_insert_eq. by apply lookup_lt_Some in Hx.
Qed.

Lemma vectorize_sentence_closed (next_chars : list char)
    (x : list (list (list bool))) (y : list (list bool)) i (s : list char) nc row :
  length s = max_len → (∀ c, c ∈ s → c ∈ chars) →
  x !! i = Some (replicate max_len zero_row) →
  next_chars !! i = Some nc → nc ∈ chars →
  y !! i = Some row → length row = V →
  vectorize_sentence load2 chars next_chars (x, y) (i, s)
  = Ok (<[i := one_hot_row <$> s]> x, y).
Proof.
  intros Hlen Hs Hx Hnc Hin Hy Hrow. unfold vectorize_sentence. cbn [fst snd].
  unfold enumerate.
  pose proof (fill_sentence_from s [] x i Hs) as Hfill.
  cbn [length app] in Hfill. rewrite Hfill by (by rewrite Hlen).
  rewrite bind_Ok, Hnc, bind_Ok.
  destruct (getitem_char_indices nc Hin) as (k & -> & _ & Hk & _).
  rewrite bind_Ok. unfold load2. rewrite Hy.
  destruct (lookup_lt_is_Some_2 row k) as [b ->]; [lia|]. done.
Qed.

Lemma vectorize_from (next_chars : list char) (y : list (list bool))
    (ss : list (list char)) (filled : list (list (list bool))) :
  Forall (λ s, length s = max_len ∧ ∀ c, c ∈ s → c ∈ chars) ss →
  (∀ i, i < length filled + length ss →
     ∃ nc, next_chars !! i = Some nc ∧ nc ∈ chars) →
  (∀ i, i < length filled + length ss →
     ∃ row, y !! i = Some row ∧ length row = V) →
  for_state (vectorize_sentence load2 chars next_chars)
    (zip (seq (length filled) (length ss)) ss)
    (filled ++ zeros3 (length ss) max_len V, y)
  = Ok (filled ++ ((λ s : list char, one_hot_row <$> s) <$> ss), y).
Proof.
  intros Hss. revert filled.
  induction Hss as [|s ss [Hlen Hs] _ IH]; intros filled Hnext Hy.
  - cbn. by rewrite !app_nil_r.
  - change (zip (seq (length filled) (length (s :: ss))) (s :: ss))
      with ((length filled, s) :: zip (seq (S (length filled)) (length ss)) ss).
    change (zeros3 (length (s :: ss)) max_len V)
      with (replicate max_len zero_row :: zeros3 (length ss) max_len V).
    rewrite for_state_cons.
    destruct (Hnext (length filled)) as (nc & Hnc & Hin); [cbn; lia|].
    destruct (Hy (length filled)) as (row & Hrow & Hrl); [cbn; lia|].
    rewrite (vectorize_sentence_closed next_chars _ y (length filled) s nc row);
      try done.
    2:{ by rewrite lookup_app_r, Nat.sub_diag. }
    rewrite bind_Ok.
    rewrite insert_app_r_alt, Nat.sub_diag by done. cbn [insert list_insert].
    specialize (IH (filled ++ [one_hot_row <$> s])).
    rewrite length_app in IH. cbn [length] in IH. rewrite Nat.add_1_r in IH.
    rewrite <- app_assoc in IH. cbn [app] in IH.
    rewrite IH.
    + by rewrite <- app_assoc.
    + intros i Hi. apply Hnext. cbn. lia.
    + intros i Hi. apply Hy. cbn. lia.
Qed.
End VectorizationProofs.

Lemma one_hot_row_lookup (chars : list char) (c : char) (k : nat) :
  NoDup chars → c ∈ chars →
  <[default 0 (char_indices chars !! c) := true]> (replicate (length chars) false) !! k
    = Some true
  ↔ chars !! k = Some c.
Proof.
  intros Hnd Hc.
  destruct (getitem_char_indices chars Hnd c Hc) as (k0 & _ & Hk0 & Hlt & ->).
  destruct (decide (k = k0)) as [->|Hne].
  - rewrite list_lookup_insert_eq by (by rewrite length_replicate). done.
  - rewrite list_lookup_insert_ne by done. split.
    + intros [[=] _]%lookup_replicate.
    + intros Hk. destruct Hne. by eapply NoDup_lookup.
Qed.

(** C10. In the unnamed revision of the Keras notebook, after the
    vectorization loop, [y] is still the array of zeros it was created as,
    for every corpus: the statement on [y] only reads a cell. The loop does
    complete, and it fills [x] one-hot: the row of [x] for position [t] of
    sentence [i] is set exactly at the index of that symbol. *)
Theorem vectorization_targets_zero (text : list char) :
  ∃ sentences next_chars x,
    Keras.windows Keras.max_len Keras.step text = Ok (sentences, next_chars) ∧
    Keras.vectorization text
    = Ok (x, Keras.zeros2 (length sentences) (length (sorted_chars text))) ∧
    length x = length sentences ∧
    ∀ i t c, sentences !! i ≫= (.!! t) = Some c →
      ∃ row, x !! i ≫= (.!! t) = Some row ∧
        length row = length (sorted_chars text) ∧
        ∀ k, row !! k = Some true ↔ sorted_chars text !! k = Some c.
Proof.
  set (chars := sorted_chars text).
  assert (NoDup chars) as Hnd.
  { subst chars. rewrite sorted_chars_listing. apply NoDup_remove_dups. }
  assert (∀ c, c ∈ text → c ∈ chars) as Hel.
  { intros c Hc. subst chars. by rewrite sorted_chars_listing, elem_of_remove_dups. }
  assert (1 ≤ Keras.step) as Hstep by (unfold Keras.step; lia).
  pose proof (windows_closed Keras.max_len Keras.step text Hstep) as Hw.
  set (starts := (λ k, k * Keras.step) <$> _) in Hw.
  set (sentences := (λ i, drop i (take (i + Keras.max_len) text)) <$> starts) in Hw.
  set (next_chars := (λ i, default 0%N (text !! (i + Keras.max_len))) <$> starts) in Hw.
  assert (Forall (λ s, length s = Keras.max_len ∧ ∀ c, c ∈ s → c ∈ chars) sentences)
    as Hss.
  { subst sentences. apply Forall_fmap, Forall_forall. intros i Hi. cbn. split.
    - by apply (sentence_length Keras.max_len Keras.step text).
    - intros c Hc. by apply Hel, (sentence_chars Keras.max_len text i). }
  exists sentences, next_chars,
    ((λ s : list char,
        (λ c, <[default 0 (char_indices chars !! c) := true]>
                (replicate (length chars) false)) <$> s) <$> sentences).
  split; [done|]. split; [|split].
  - unfold Keras.vectorization, Keras.vectorization_with. fold chars.
    rewrite Hw, bind_Ok. cbn [fst snd]. unfold enumerate.
    pose proof (vectorize_from chars Keras.max_len Hnd next_chars
      (Keras.zeros2 (length sentences) (length chars)) sentences [] Hss) as Hv.
    cbn [length app Nat.add] in Hv. apply Hv.
    + intros i Hi. subst next_chars sentences. rewrite length_fmap in Hi.
      rewrite list_lookup_fmap.
      destruct (lookup_lt_is_Some_2 starts i Hi) as [j Hj]. rewrite Hj. cbn.
      eexists. split; [done|]. apply Hel.
      apply (next_char_in_text Keras.max_len Keras.step text Hstep).
      by eapply list_elem_of_lookup_2.
    + intros i Hi. exists (replicate (length chars) false).
      split; [by apply lookup_replicate_2|]. by rewrite length_replicate.
  - by rewrite length_fmap.
  - intros i t c Hc. rewrite list_lookup_fmap.
    destruct (sentences !! i) as [s|] eqn:Hs; [|done]. cbn in Hc |- *.
    rewrite list_lookup_fmap, Hc. cbn. eexists. split; [done|].
    split; [by rewrite length_insert, length_replicate|].
    intros k. apply one_hot_row_lookup; [done|].
    eapply Forall_lookup_1 in Hss as [_ Hin]; [|exact Hs].
    apply Hin. by eapply list_elem_of_lookup_2.
Qed.

(** ** Sampling from the network *)

Section Rationals.
Import Sampler.
Local Open Scope Q_scope.

Lemma Qsum_cons (q : Q) (l : list Q) : Qsum (q :: l) = q + Qsum l.
Proof. done. Qed.

Lemma Qsum_pos (l : list Q) : l ≠ [] → Forall (λ q, 0 < q) l → 0 < Qsum l.
Proof.
  intros Hne Hl. destruct Hl as [|q l Hq Hl]; [done|]. clear Hne.
  rewrite Qsum_cons.
  assert (0 <= Qsum l) as Hs.
  { induction Hl as [|q' l Hq' _ IH]; [apply Qle_refl|].
    rewrite Qsum_cons. apply Qlt_le_weak in Hq'. Lqa.lra. }
  Lqa.lra.
Qed.

Lemma Qsum_div (l : list Q) (s : Q) :
  Qsum ((λ x, x / s) <$> l) == Qsum l / s.
Proof.
  induction l as [|q l IH].
  - cbn. unfold Qdiv. ring.
  - rewrite fmap_cons, !Qsum_cons, IH. unfold Qdiv. ring.
Qed.

Lemma Qdiv_pos (x s : Q) : 0 < x → 0 < s → 0 < x / s.
Proof.
  intros Hx Hs. unfold Qdiv. apply Qmult_lt_0_compat; [done|].
  by apply Qinv_lt_0_compat.
Qed.

Lemma Qdiv_self (s : Q) : 0 < s → s / s == 1.
Proof. intros Hs. field. intros Hz. rewrite Hz in Hs. by apply Qlt_irrefl in Hs. Qed.

Lemma cumsum_from_last (acc : Q) (l : list Q) :
  l ≠ [] → ∃ c, last (cumsum_from acc l) = Some c ∧ c == acc + Qsum l.
Proof.
  revert acc. induction l as [|q l IH]; intros acc Hne; [done|].
  destruct l as [|q' l].
  - cbn. eexists. split; [done|]. unfold Qsum. cbn. ring.
  - destruct (IH (acc + q)) as (c & Hc & Heq); [done|].
    exists c. split.
    + change (last (cumsum_from acc (q :: q' :: l)))
        with (last (cumsum_from (acc + q) (q' :: l))).
      done.
    + rewrite Heq, !Qsum_cons. ring.
Qed.

Lemma length_cumsum_from (acc : Q) (l : list Q) :
  length (cumsum_from acc l) = length l.
Proof. revert acc. induction l as [|q l IH]; intros acc; cbn; [done|]. by rewrite IH. Qed.

(** A draw below the last entry is located inside the array. *)
Lemma searchsorted_right_lt (cdf : list Q) (u c : Q) :
  last cdf = Some c → u < c → (searchsorted_right cdf u < length cdf)%nat.
Proof.
  induction cdf as [|c' cdf IH]; intros Hlast Hu; [done|]. cbn.
  destruct (decide (c' <= u)) as [Hle|Hgt]; [|lia].
  destruct cdf as [|c'' cdf].
  - cbn in Hlast. injection Hlast as ->. Lqa.lra.
  - change (last (c' :: c'' :: cdf)) with (last (c'' :: cdf)) in Hlast.
    specialize (IH Hlast Hu). cbn [length] in IH |- *. lia.
Qed.

(** The scan stops at the first entry above the draw. *)
Lemma searchsorted_right_scan (cdf : list Q) (u : Q) :
  (∀ i c, (i < searchsorted_right cdf u)%nat → cdf !! i = Some c → c <= u) ∧
  (∀ c, cdf !! searchsorted_right cdf u = Some c → u < c).
Proof.
  induction cdf as [|c' cdf [IHlo IHhi]]; [done|].
  cbn [searchsorted_right]. destruct (decide (c' <= u)) as [Hle|Hgt]; split.
  - intros [|i] c Hi; cbn; [by intros [= <-]|]. apply IHlo. lia.
  - intros c. cbn. apply IHhi.
  - intros i c Hi. lia.
  - intros c [= <-]. by apply Qnot_le_lt.
Qed.

Lemma cumsum_from_lookup (acc : Q) (l : list Q) (i : nat) (x : Q) :
  cumsum_from acc l !! i = Some x → x == acc + Qsum (take (S i) l).
Proof.
  revert acc i. induction l as [|q l IH]; intros acc i; [done|].
  destruct i as [|i]; cbn [cumsum_from lookup list_lookup].
  - intros [= <-]. rewrite firstn_cons, firstn_O, Qsum_cons. unfold Qsum. cbn. ring.
  - intros Hx%IH. rewrite Hx, firstn_cons, (Qsum_cons q). ring.
Qed.

Lemma Qsum_take_div (l : list Q) (s : Q) (n : nat) :
  Qsum (take n ((λ x, x / s) <$> l)) == Qsum (take n l) / s.
Proof. rewrite <- fmap_take. apply Qsum_div. Qed.
End Rationals.

Section Choice.
Import Sampler.

Lemma bind_Ok_inv {A B : Type} (m : result A) (f : A → result B) (b : B) :
  m ≫= f = Ok b → ∃ a, m = Ok a ∧ f a = Ok b.
Proof. destruct m as [a|e]; [|done]. intros Hf. by exists a. Qed.

Lemma squeeze_row {A : Type} (r : list A) : 2 ≤ length r → squeeze [r] = Nd1 r.
Proof. destruct r as [|a [|b r]]; cbn; (lia || done). Qed.

Lemma squeeze_cell {A : Type} (a : A) : squeeze [[a]] = Nd0 a.
Proof. done. Qed.

Lemma no_negative (l : list Q) :
  Forall (λ q, 0 < q)%Q l → existsb (λ x, bool_decide (x < 0)%Q) l = false.
Proof.
  induction 1 as [|q l Hq _ IH]; [done|]. cbn. rewrite IH, orb_false_r.
  apply bool_decide_eq_false. intros Hneg.
  apply (Qlt_irrefl 0). by apply (Qlt_trans _ q).
Qed.

(** With a one-dimensional candidate array and positive weights of the
    same length, [np.random.choice] returns the candidate at the position
    [j] where the cumulated, renormalised weights first exceed the draw:
    inverse transform sampling of the distribution [ps / sum ps]. *)
Lemma choice_position (idxs : list nat) (ps : list Q) (u : Q) :
  length idxs = length ps → ps ≠ [] → Forall (λ q, 0 < q)%Q ps → (u < 1)%Q →
  ∃ j c, choice (Nd1 idxs) (nd_div (Nd1 ps) (nd_sum (Nd1 ps))) u = Ok c ∧
    idxs !! j = Some c ∧
    (∀ i, i < j → (Qsum (take (S i) ps) / Qsum ps <= u)%Q) ∧
    (u < Qsum (take (S j) ps) / Qsum ps)%Q.
Proof.
  intros Hlen Hne Hpos Hu. unfold choice, nd_div, nd_sum.
  assert (0 < length ps) as Hl by (destruct ps; [done | cbn; lia]).
  destruct (decide (length idxs = 0)); [lia|]. rewrite bind_Ok.
  set (s := Qsum ps). set (pl := (λ x, x / s)%Q <$> ps).
  assert (0 < s)%Q as Hs by (by apply Qsum_pos).
  assert (Forall (λ q, 0 < q)%Q pl) as Hpl.
  { subst pl. apply Forall_fmap. eapply Forall_impl; [exact Hpos|].
    intros q Hq. by apply Qdiv_pos. }
  assert (Qsum pl == 1)%Q as Hsum.
  { subst pl. rewrite Qsum_div. by apply Qdiv_self. }
  assert (length pl = length idxs) as Hpl_len by (subst pl; by rewrite length_fmap).
  destruct (decide (length pl ≠ length idxs)); [done|].
  rewrite no_negative by done.
  destruct (decide (atol < Qabs (Qsum pl - 1))%Q) as [Hbad|_].
  { exfalso. assert (Qsum pl - 1 == 0)%Q as Hz by (rewrite Hsum; ring).
    rewrite Hz in Hbad. by vm_compute in Hbad. }
  destruct (cumsum_from_last 0 pl) as (total & Hlast & Htotal).
  { intros Hnil. rewrite Hnil in Hpl_len. cbn in Hpl_len. lia. }
  unfold cumsum. rewrite Hlast.
  change (default 0%Q (Some total)) with total. cbv zeta.
  assert (total == 1)%Q as Ht1 by (rewrite Htotal, Hsum; ring).
  set (cdf := (λ c, c / total)%Q <$> cumsum_from 0 pl).
  assert (∀ i x, cdf !! i = Some x → x == Qsum (take (S i) ps) / s)%Q as Hcdf.
  { intros i x. subst cdf. rewrite list_lookup_fmap.
    destruct (cumsum_from 0 pl !! i) as [y|] eqn:Hy; [|done].
    intros [= <-]. apply cumsum_from_lookup in Hy.
    subst pl. rewrite Qsum_take_div in Hy. rewrite Hy, Ht1. field.
    intros Hz. rewrite Hz in Hs. by apply Qlt_irrefl in Hs. }
  assert (searchsorted_right cdf u < length cdf) as Hidx.
  { apply (searchsorted_right_lt cdf u (total / total)%Q).
    - subst cdf. by rewrite fmap_last, Hlast.
    - rewrite Ht1. by vm_compute (1 / 1)%Q. }
  destruct (searchsorted_right_scan cdf u) as [Hlo Hhi].
  set (j := searchsorted_right cdf u) in *.
  assert (j < length idxs) as Hj.
  { subst cdf. by rewrite length_fmap, length_cumsum_from, Hpl_len in Hidx. }
  destruct (lookup_lt_is_Some_2 idxs j Hj) as [c Hc].
  rewrite Hc. exists j, c. split; [done|]. split; [done|]. split.
  - intros i Hi.
    destruct (lookup_lt_is_Some_2 cdf i) as [x Hx]; [lia|].
    rewrite <- (Hcdf i x Hx). by apply (Hlo i).
  - destruct (lookup_lt_is_Some_2 cdf j Hidx) as [x Hx].
    rewrite <- (Hcdf j x Hx). by apply Hhi.
Qed.

Lemma choice_Ok (idxs : list nat) (ps : list Q) (u : Q) :
  length idxs = length ps → ps ≠ [] → Forall (λ q, 0 < q)%Q ps → (u < 1)%Q →
  ∃ c, choice (Nd1 idxs) (nd_div (Nd1 ps) (nd_sum (Nd1 ps))) u = Ok c ∧ c ∈ idxs.
Proof.
  intros Hlen Hne Hpos Hu.
  destruct (choice_position idxs ps u) as (j & c & Hc & Hj & _); try done.
  exists c. split; [done|]. by eapply list_elem_of_lookup_2.
Qed.

(** The draws that select position [j] are those of the interval between the
    cumulated weights before and after it, whose length is [ps[j] / sum ps]. *)
Lemma choice_interval (idxs : list nat) (ps : list Q) (u : Q) :
  length idxs = length ps → ps ≠ [] → Forall (λ q, 0 < q)%Q ps →
  (0 <= u)%Q → (u < 1)%Q →
  ∃ j c, choice (Nd1 idxs) (nd_div (Nd1 ps) (nd_sum (Nd1 ps))) u = Ok c ∧
    idxs !! j = Some c ∧
    (Qsum (take j ps) / Qsum ps <= u)%Q ∧
    (u < Qsum (take (S j) ps) / Qsum ps)%Q.
Proof.
  intros Hlen Hne Hpos Hu0 Hu1.
  destruct (choice_position idxs ps u) as (j & c & Hc & Hj & Hlo & Hhi); try done.
  exists j, c. split; [done|]. split; [done|]. split; [|done].
  destruct j as [|j]; [|apply Hlo; lia].
  rewrite firstn_O. unfold Qsum at 1. cbn [foldr].
  assert (0 / Qsum ps == 0)%Q as -> by (unfold Qdiv; ring). done.
Qed.

Lemma topk_row_Ok (k : nat) (row : list Q) :
  k ≤ length row →
  ∃ vals idxs, topk_row k row = Ok (vals, idxs) ∧
    length vals = k ∧ length idxs = k ∧
    (∀ v, v ∈ vals → v ∈ row) ∧
    (∀ i, i ∈ idxs → i < length row).
Proof.
  intros Hk. unfold topk_row. destruct (decide (k ≤ length row)); [|done].
  set (pairs := zip row (seq 0 (length row))).
  set (best := take k (merge_sort prob_ge pairs)).
  assert (length pairs = length row) as Hlp.
  { subst pairs. rewrite length_zip_with, length_seq. lia. }
  assert (length best = k) as Hlb.
  { subst best. rewrite length_take, merge_sort_Permutation. lia. }
  assert (∀ vi, vi ∈ best → vi ∈ pairs) as Hin.
  { intros vi Hvi. subst best. apply subseteq_take in Hvi.
    by rewrite merge_sort_Permutation in Hvi. }
  exists (best.*1), (best.*2). split; [done|].
  split; [by rewrite length_fmap|]. split; [by rewrite length_fmap|]. split.
  - intros v ([v' i] & -> & Hvi%Hin)%list_elem_of_fmap.
    subst pairs. by apply elem_of_zip_l in Hvi.
  - intros i ([v i'] & -> & Hvi%Hin)%list_elem_of_fmap.
    subst pairs. apply elem_of_zip_r in Hvi. cbn. apply elem_of_seq in Hvi. lia.
Qed.

#[local] Instance prob_ge_trans : Transitive prob_ge.
Proof. intros a b c Hab Hbc. unfold prob_ge in *. by eapply Qle_trans. Qed.

#[local] Instance prob_ge_total : Total prob_ge.
Proof.
  intros a b. unfold prob_ge.
  destruct (Qlt_le_dec a.1 b.1) as [Hlt|Hle]; [right|left; done].
  by apply Qlt_le_weak.
Qed.


End Choice.

Section PredictProofs.
Import Sampler.
Context {H : Type}.
Implicit Types (net : CharRNN H) (top_k : option nat).

(** Whatever [predict] returns is a symbol of the vocabulary: its last
    step is a lookup in [int2char]. *)
Lemma predict_in_vocab net ch h top_k u c h' :
  predict net ch h top_k u = Ok (c, h') → c ∈ chars net.
Proof.
  unfold predict.
  intros (i & _ & Hrest)%bind_Ok_inv.
  apply bind_Ok_inv in Hrest as (x & _ & Hrest).
  destruct (softmax_forward net x (default (init_hidden net 1) h)) as [p h1].
  apply bind_Ok_inv in Hrest as ([p' top_ch] & _ & Hrest).
  apply bind_Ok_inv in Hrest as (j & _ & Hrest).
  apply bind_Ok_inv in Hrest as (c' & Hget & [= -> ->]).
  unfold getitem in Hget. rewrite int2char_lookup in Hget.
  destruct (chars net !! j) as [c''|] eqn:Hj; [|done].
  injection Hget as ->. by eapply list_elem_of_lookup_2.
Qed.

(** [predict] needs its input symbol in the vocabulary. *)
Lemma predict_input_in_vocab net ch h top_k u r :
  predict net ch h top_k u = Ok r → ch ∈ chars net.
Proof.
  unfold predict. intros (i & Hget & _)%bind_Ok_inv.
  unfold getitem in Hget.
  destruct (char2int (chars net) !! ch) as [i'|] eqn:Hi; [|done].
  apply char2int_inv in Hi. by eapply list_elem_of_lookup_2.
Qed.

Lemma one_hot_input net i :
  i < length (chars net) →
  ∃ x, OneHot.one_hot_encode [[Z.of_nat i]] (length (chars net)) = Ok x.
Proof.
  intros Hi. eexists. apply (one_hot_encode_closed _ _ 1).
  - by repeat constructor.
  - repeat constructor; lia.
Qed.

(** With a well-shaped network, an admissible [top_k] and a draw of
    [[0,1)], [predict] returns; with [top_k = k] the symbol returned is one
    of [k] symbols none of which is less probable than a symbol left
    out. *)
Lemma predict_Ok net ch h top_k u :
  softmax_shaped net → admissible net top_k → ch ∈ chars net → (u < 1)%Q →
  ∃ c h', predict net ch h top_k u = Ok (c, h') ∧ c ∈ chars net.
Proof.
  intros Hnet Hadm Hch Hu.
  assert (∃ r, predict net ch h top_k u = Ok r) as [[c h'] Hr].
  2:{ exists c, h'. split; [done|]. by eapply predict_in_vocab. }
  unfold predict.
  destruct (char2int_is_Some _ _ Hch) as [i Hi].
  rewrite (getitem_Some _ _ _ Hi), bind_Ok.
  assert (i < length (chars net)) as Hlt.
  { apply char2int_inv in Hi. by apply lookup_lt_Some in Hi. }
  destruct (one_hot_input net i Hlt) as [x ->]. rewrite bind_Ok.
  destruct (Hnet x (default (init_hidden net 1) h)) as (row & Hp & Hlen & Hpos).
  destruct (softmax_forward net x (default (init_hidden net 1) h)) as [p h1].
  cbn in Hp. subst p.
  assert (∀ idxs ps, length idxs = length ps → 2 ≤ length ps →
            Forall (λ q, 0 < q)%Q ps → (∀ j, j ∈ idxs → j < length (chars net)) →
            ∃ r, (c ← choice (Nd1 idxs) (nd_div (Nd1 ps) (nd_sum (Nd1 ps))) u;
                  ch' ← getitem (int2char (chars net)) c;
                  Ok (ch', h1)) = Ok r) as Hfin.
  { intros idxs ps Hl Hps Hpp Hidx.
    destruct (choice_Ok idxs ps u) as (c & -> & Hc); try done.
    { intros ->. cbn in Hps. lia. }
    rewrite bind_Ok.
    destruct (lookup_lt_is_Some_2 (chars net) c (Hidx c Hc)) as [c' Hc'].
    rewrite <- int2char_lookup in Hc'.
    rewrite (getitem_Some _ _ _ Hc'), bind_Ok. by eexists. }
  destruct top_k as [k|]; cbn in Hadm.
  - destruct (topk_row_Ok k row) as (vals & idxs & Htop & Hlv & Hli & Hv & Hidx);
      [lia|].
    unfold topk. cbn [for_each]. rewrite Htop, !bind_Ok. cbn [fmap list_fmap fst snd].
    rewrite !squeeze_row by lia.
    apply Hfin; [lia | lia | | ].
    + apply Forall_forall. intros v Hvin%Hv.
      by eapply Forall_forall in Hpos.
    + intros j Hj%Hidx. lia.
  - rewrite bind_Ok, squeeze_row by lia.
    apply Hfin; [by rewrite length_seq | lia | done |].
    intros j Hj%elem_of_seq. lia.
Qed.


(** With [top_k=None] every position is a candidate and the weights are the
    whole row. *)
Lemma predict_full_draw net ch h u i0 x row h' :
  char2int (chars net) !! ch = Some i0 →
  OneHot.one_hot_encode [[Z.of_nat i0]] (length (chars net)) = Ok x →
  softmax_forward net x (default (init_hidden net 1) h) = ([row], h') →
  length row = length (chars net) → Forall (λ q, 0 < q)%Q row →
  2 ≤ length row →
  (0 <= u)%Q → (u < 1)%Q →
  ∃ j c, predict net ch h None u = Ok (c, h') ∧ chars net !! j = Some c ∧
    (Qsum (take j row) / Qsum row <= u)%Q ∧
    (u < Qsum (take (S j) row) / Qsum row)%Q.
Proof.
  intros Hi0 Hx Hfw Hlen Hpos Hk Hu0 Hu1.
  destruct (choice_interval (seq 0 (length (chars net))) row u)
    as (j & i & Hc & Hj & Hlo & Hhi);
    try done; [by rewrite length_seq | by intros ->; cbn in Hk; lia |].
  apply lookup_seq in Hj as [-> Hjlt]. change (0 + j) with j in Hc.
  destruct (lookup_lt_is_Some_2 (chars net) j Hjlt) as [c Hcj].
  exists j, c. split; [|done].
  unfold predict. rewrite (getitem_Some _ _ _ Hi0), bind_Ok, Hx, bind_Ok, Hfw.
  rewrite bind_Ok, squeeze_row, Hc, bind_Ok by lia.
  rewrite <- int2char_lookup in Hcj. by rewrite (getitem_Some _ _ _ Hcj), bind_Ok.
Qed.

(** Greedy decoding: with [top_k=1] both arrays handed to
    [np.random.choice] are squeezed to dimension zero and the call raises,
    whatever the network returns for the single input row. *)
Lemma predict_top1 net ch h u :
  (∀ x h, length (softmax_forward net x h).1 = 1) →
  ∃ e, predict net ch h (Some 1) u = Raise e.
Proof.
  intros Hshape. unfold predict.
  destruct (getitem (char2int (chars net)) ch) as [i|e]; [|by exists e].
  rewrite bind_Ok.
  destruct (OneHot.one_hot_encode [[Z.of_nat i]] (length (chars net))) as [x|e];
    [|by exists e].
  rewrite bind_Ok.
  specialize (Hshape x (default (init_hidden net 1) h)).
  destruct (softmax_forward net x (default (init_hidden net 1) h)) as [p h1].
  cbn in Hshape. destruct p as [|row [|??]]; try done. clear Hshape.
  unfold topk, topk_row. cbn [for_each].
  destruct (decide (1 ≤ length row)) as [Hrow|]; [|by exists RuntimeError].
  cbv zeta.
  set (sorted := merge_sort prob_ge (zip row (seq 0 (length row)))).
  assert (length sorted = length row) as Hls.
  { subst sorted. rewrite merge_sort_Permutation, length_zip_with, length_seq. lia. }
  destruct sorted as [|[v j] rest]; [cbn in Hls; lia|].
  rewrite !bind_Ok. cbn [firstn fmap list_fmap fst snd].
  rewrite !firstn_O. cbn [fmap list_fmap].
  rewrite !squeeze_cell. unfold choice, nd_div.
  destruct (decide (j = 0)); [by exists ValueError|].
  rewrite bind_Ok. by exists TypeError.
Qed.
End PredictProofs.

Section ForState.
Context {S A : Type}.
Implicit Types (f : S → A → result S) (P : S → Prop).

Lemma for_state_total f P (xs : list A) (s : S) :
  (∀ s x, x ∈ xs → P s → ∃ s', f s x = Ok s' ∧ P s') →
  P s → ∃ s', for_state f xs s = Ok s' ∧ P s'.
Proof.
  revert s. induction xs as [|x xs IH]; intros s Hstep Hs.
  - by exists s.
  - destruct (Hstep s x) as (s1 & Hf & Hs1); [by left | done |].
    rewrite for_state_cons, Hf, bind_Ok. apply IH; [|done].
    intros s2 y Hy. apply Hstep. by right.
Qed.

End ForState.

Section SampleProofs.
Import Sampler.
Context {H : Type}.
Variables (net : CharRNN H) (top_k : option nat) (rnd : nat → Q).

Lemma step_predict_inv (s s' : sampling H) ch :
  step_predict net top_k rnd s ch = Ok s' →
  s_chars s' = s_chars s ∧ ch ∈ chars net ∧
  ∃ c, s_char s' = Some c ∧ c ∈ chars net.
Proof.
  unfold step_predict. intros ([c h] & Hp & [= <-])%bind_Ok_inv. cbn.
  split; [done|]. split; [by eapply predict_input_in_vocab|].
  exists c. split; [done|]. by eapply predict_in_vocab.
Qed.

Lemma append_char_inv (s s' : sampling H) :
  append_char s = Ok s' →
  ∃ c, s_char s = Some c ∧ s_chars s' = s_chars s ++ [c] ∧ s_char s' = Some c.
Proof.
  unfold append_char. destruct (s_char s) as [c|] eqn:Hc; [|done].
  intros [= <-]. by exists c.
Qed.

Lemma step_generate_inv (s s' : sampling H) ii :
  step_generate net top_k rnd s ii = Ok s' →
  ∃ c, s_chars s' = s_chars s ++ [c] ∧ c ∈ chars net.
Proof.
  unfold step_generate. intros (prev & _ & Hrest)%bind_Ok_inv.
  apply bind_Ok_inv in Hrest as (s1 & Hs1 & Happ).
  apply step_predict_inv in Hs1 as (Hchars & _ & c & Hc & Hin).
  apply append_char_inv in Happ as (c' & Hc' & Happ & _).
  exists c. rewrite Hc in Hc'. injection Hc' as <-. by rewrite Happ, Hchars.
Qed.

Lemma prime_loop_inv (prime : list char) (s0 s : sampling H) :
  for_state (step_predict net top_k rnd) prime s0 = Ok s →
  s_chars s = s_chars s0 ∧ Forall (λ c, c ∈ chars net) prime ∧
  (prime = [] → s = s0) ∧
  (prime ≠ [] → ∃ c, s_char s = Some c ∧ c ∈ chars net).
Proof.
  revert s0. induction prime as [|ch prime IH]; intros s0.
  - intros [= <-]. by repeat split.
  - rewrite for_state_cons. intros (s1 & Hs1 & Hrest)%bind_Ok_inv.
    apply step_predict_inv in Hs1 as (Hchars & Hch & c & Hc & Hin).
    apply IH in Hrest as (Hchars' & Hall & Hnil & Hcons).
    split; [congruence|]. split; [by constructor|]. split; [done|].
    intros _. destruct prime as [|ch' prime].
    + rewrite Hnil by done. by exists c.
    + by apply Hcons.
Qed.

Lemma generate_loop_inv (xs : list nat) (s0 s : sampling H) :
  for_state (step_generate net top_k rnd) xs s0 = Ok s →
  ∃ gen, s_chars s = s_chars s0 ++ gen ∧ length gen = length xs ∧
    Forall (λ c, c ∈ chars net) gen.
Proof.
  revert s0. induction xs as [|x xs IH]; intros s0.
  - intros [= <-]. exists []. by rewrite app_nil_r.
  - rewrite for_state_cons. intros (s1 & Hs1 & Hrest)%bind_Ok_inv.
    apply step_generate_inv in Hs1 as (c & Hchars & Hin).
    apply IH in Hrest as (gen & Hgen & Hlen & Hall).
    exists (c :: gen). rewrite Hgen, Hchars, <- app_assoc.
    split; [done|]. split; [cbn; by rewrite Hlen|]. by constructor.
Qed.

(** What [sample] returns, when it returns: the prime, then [size + 1]
    symbols of the vocabulary. *)
Lemma sample_inv (size : nat) (prime out : list char) :
  sample net size prime top_k rnd = Ok out →
  ∃ gen, out = prime ++ gen ∧ length gen = S size ∧
    Forall (λ c, c ∈ chars net) gen ∧
    Forall (λ c, c ∈ chars net) prime ∧ prime ≠ [].
Proof.
  unfold sample. intros (s1 & Hs1 & Hrest)%bind_Ok_inv.
  apply bind_Ok_inv in Hrest as (s2 & Hs2 & Hrest).
  apply bind_Ok_inv in Hrest as (s3 & Hs3 & [= <-]).
  apply prime_loop_inv in Hs1 as (Hc1 & Hprime & Hnil & Hcons). cbn in Hc1.
  apply append_char_inv in Hs2 as (c & Hc & Hc2 & _).
  apply generate_loop_inv in Hs3 as (gen & Hgen & Hlen & Hall).
  assert (prime ≠ []) as Hne.
  { intros ->. rewrite Hnil in Hc by done. done. }
  destruct (Hcons Hne) as (c' & Hc' & Hin). rewrite Hc in Hc'. injection Hc' as <-.
  exists (c :: gen). rewrite Hgen, Hc2, Hc1, <- app_assoc.
  split; [done|]. split; [cbn; by rewrite Hlen, length_seq|].
  split; [by constructor|]. done.
Qed.

(** [sample] on an empty prime reads the variable [char] before any
    assignment. *)
Lemma sample_empty_prime (size : nat) :
  sample net size [] top_k rnd = Raise UnboundLocalError.
Proof. done. Qed.

(** [sample] returns for a non-empty prime over the vocabulary. *)
Lemma sample_Ok (size : nat) (prime : list char) :
  softmax_shaped net → admissible net top_k → unit_draws rnd →
  prime ≠ [] → Forall (λ c, c ∈ chars net) prime →
  ∃ out, sample net size prime top_k rnd = Ok out.
Proof.
  intros Hnet Hadm Hrnd Hne Hprime. unfold sample.
  set (s0 := {| s_chars := prime; s_char := None;
                s_h := init_hidden net 1; s_draws := 0 |}).
  assert (∀ s ch, ch ∈ chars net →
            ∃ s', step_predict net top_k rnd s ch = Ok s') as Hstep.
  { intros s ch Hch. unfold step_predict.
    destruct (predict_Ok net ch (Some (s_h s)) top_k (rnd (s_draws s)))
      as (c & h' & -> & _); try done; [apply Hrnd|].
    rewrite bind_Ok. by eexists. }
  destruct (for_state_total (step_predict net top_k rnd) (λ _, True) prime s0)
    as (s1 & Hs1 & _); [|done|].
  { intros s ch Hch _. destruct (Hstep s ch) as [s' Hs'].
    - by eapply Forall_forall in Hprime.
    - by exists s'. }
  rewrite Hs1, bind_Ok.
  apply prime_loop_inv in Hs1 as (Hc1 & _ & _ & Hcons).
  destruct (Hcons Hne) as (c & Hc & Hin).
  unfold append_char at 1. rewrite Hc, bind_Ok.
  set (s2 := {| s_chars := s_chars s1 ++ [c] |}).
  destruct (for_state_total (step_generate net top_k rnd)
              (λ s, ∃ c, last (s_chars s) = Some c ∧ c ∈ chars net)
              (seq 0 size) s2) as (s3 & Hs3 & _).
  - intros s ii _ (prev & Hprev & Hpin). unfold step_generate.
    rewrite Hprev, bind_Ok.
    destruct (Hstep s prev Hpin) as [s' Hs']. rewrite Hs', bind_Ok.
    apply step_predict_inv in Hs' as (Hchars & _ & c' & Hc' & Hin').
    unfold append_char. rewrite Hc'. eexists. split; [done|]. cbn.
    exists c'. by rewrite last_snoc.
  - exists c. subst s2. cbn. by rewrite last_snoc.
  - rewrite Hs3, bind_Ok. by eexists.
Qed.
End SampleProofs.

Lemma abc_net_shaped : Sampler.softmax_shaped Sampler.abc_net.
Proof.
  intros x h. exists [1 # 3; 1 # 2; 1 # 6]%Q. split; [done|]. split; [done|].
  by repeat constructor.
Qed.

(** C3. Evaluation of [CharRNN.predict] with [top_k=1], a value the
    statement covers ([1 <= K <= vocabulary size]): for every network that
    returns one row of probabilities, every input symbol, hidden state and
    draw, the call raises instead of returning the most probable symbol. *)
Theorem predict_top_k_one_raises {H : Type} (net : Sampler.CharRNN H)
    (ch : char) (h : option H) (u : Q) :
  Sampler.softmax_shaped net →
  ∃ e, Sampler.predict net ch h (Some 1) u = Raise e.
Proof.
  intros Hnet. apply predict_top1. intros x h0.
  destruct (Hnet x h0) as (row & -> & _). done.
Qed.

Lemma predict_top_k_one_raises_witness :
  ∃ e, Sampler.predict Sampler.abc_net 98%N None (Some 1) (1 # 2)%Q = Raise e.
Proof.
  apply (predict_top_k_one_raises Sampler.abc_net 98%N None (1 # 2)%Q).
  intros x h. exists [1 # 3; 1 # 2; 1 # 6]%Q. split; [reflexivity|].
  split; [reflexivity|]. repeat constructor.
Defined.

(** C6. For every network, size, [top_k] and priming string over the
    vocabulary, every character of the string returned by [sample] is a
    symbol of the vocabulary; and [sample] does return one when the network
    is well shaped, [top_k] is admissible, the draws are in [[0,1)] and the
    prime is not empty. *)
Theorem sample_in_vocabulary {H : Type} (net : Sampler.CharRNN H) (size : nat)
    (prime : list char) (top_k : option nat) (rnd : nat → Q) :
  Forall (λ c, c ∈ Sampler.chars net) prime →
  (∀ out, Sampler.sample net size prime top_k rnd = Ok out →
     Forall (λ c, c ∈ Sampler.chars net) out) ∧
  (Sampler.softmax_shaped net → Sampler.admissible net top_k →
   Sampler.unit_draws rnd → prime ≠ [] →
     ∃ out, Sampler.sample net size prime top_k rnd = Ok out).
Proof.
  intros Hprime. split.
  - intros out (gen & -> & _ & Hgen & _ & _)%sample_inv.
    by apply Forall_app.
  - intros Hnet Hadm Hrnd Hne. by apply sample_Ok.
Qed.

Lemma sample_in_vocabulary_witness :
  (∀ out, Sampler.sample Sampler.abc_net 2 [97; 98]%N (Some 2)
            (λ t, Z.of_nat t # 4)%Q = Ok out →
     Forall (λ c, c ∈ Sampler.chars Sampler.abc_net) out) ∧
  (Sampler.softmax_shaped Sampler.abc_net →
   Sampler.admissible Sampler.abc_net (Some 2) →
   Sampler.unit_draws (λ t, Z.of_nat t # 4)%Q → [97; 98]%N ≠ [] →
     ∃ out, Sampler.sample Sampler.abc_net 2 [97; 98]%N (Some 2)
              (λ t, Z.of_nat t # 4)%Q = Ok out).
Proof.
  apply (sample_in_vocabulary Sampler.abc_net 2 [97; 98]%N (Some 2)
           (λ t, Z.of_nat t # 4)%Q).
  repeat constructor.
Defined.

(** C7. The length of what [sample] returns: the prime followed by
    [size + 1] generated symbols, one more than the requested [size]. *)
Theorem sample_length {H : Type} (net : Sampler.CharRNN H) (size : nat)
    (prime out : list char) (top_k : option nat) (rnd : nat → Q) :
  Sampler.sample net size prime top_k rnd = Ok out →
  take (length prime) out = prime ∧ length out = length prime + size + 1.
Proof.
  intros (gen & -> & Hlen & _)%sample_inv. split.
  - by rewrite take_app_length.
  - rewrite length_app, Hlen. lia.
Qed.

Lemma sample_length_witness :
  take (length [97]%N) [97; 97]%N = [97]%N ∧
  length [97; 97]%N = length [97]%N + 0 + 1.
Proof.
  apply (sample_length Sampler.abc_net 0 [97]%N [97; 97]%N None (λ _, 0%Q)).
  vm_compute. reflexivity.
Defined.

(** ** Temperature sampling *)

Section TemperatureProofs.
Import Temperature.
Local Open Scope R_scope.

Lemma ln_nonpos (p : R) : 0 < p → p <= 1 → ln p <= 0.
Proof.
  intros Hp [Hlt | ->].
  - rewrite <- ln_1. left. by apply ln_increasing.
  - rewrite ln_1. lra.
Qed.

Lemma scaled_log_nonpos (preds : list R) (t : R) :
  Forall (λ p, 0 < p ∧ p <= 1) preds → 0 < t →
  Forall (λ v, v <= 0) (scaled_log preds t).
Proof.
  intros Hp Ht. unfold scaled_log. apply Forall_fmap.
  eapply Forall_impl; [exact Hp|]. intros p [Hp0 Hp1]. cbn.
  pose proof (ln_nonpos p Hp0 Hp1) as Hln.
  pose proof (Rinv_0_lt_compat t Ht) as Hinv.
  unfold Rdiv. nra.
Qed.

Lemma binomial1_nonpos (p u : R) : p <= 0 → u < 1 → binomial1 p u = 0%nat.
Proof.
  intros Hp Hu. unfold binomial1.
  destruct (Rle_dec p (1 / 2)) as [_|Hn]; [|lra].
  destruct (Rlt_dec (1 - p) u); [lra | done].
Qed.

Lemma multinomial_trial_last (pix : list R) (Sum : R) (rnd : nat → R) (t : nat) :
  Forall (λ v, v <= 0) pix → pix ≠ [] → 0 < Sum → (∀ n, rnd n < 1) →
  multinomial_trial pix Sum rnd t = replicate (length pix - 1) 0%nat ++ [1%nat].
Proof.
  intros Hpix. revert Sum t.
  induction Hpix as [|p pix Hp _ IH]; intros Sum t Hne HSum Hrnd; [done|].
  destruct pix as [|p' pix]; [done|].
  change (multinomial_trial (p :: p' :: pix) Sum rnd t)
    with (if decide (binomial1 (p / Sum) (rnd t) = 1%nat)
          then 1%nat :: replicate (length (p' :: pix)) 0%nat
          else 0%nat :: multinomial_trial (p' :: pix) (Sum - p) rnd (S t)).
  rewrite binomial1_nonpos; [| |apply Hrnd].
  - destruct (decide (0%nat = 1%nat)); [done|].
    rewrite IH; [|done|lra|done]. cbn [length].
    replace (S (S (length pix)) - 1)%nat with (S (S (length pix) - 1)) by lia.
    done.
  - pose proof (Rinv_0_lt_compat Sum HSum). unfold Rdiv. nra.
Qed.

Lemma Rsum_nonpos (l : list R) : Forall (λ v, v <= 0) l → Rsum l <= 0.
Proof.
  induction 1 as [|v l Hv _ IH]; [cbn; lra|].
  change (Rsum (v :: l)) with (v + Rsum l). lra.
Qed.

Lemma argmax_from_last (m besti i : nat) :
  argmax_from 0 besti i (replicate m 0%nat ++ [1%nat]) = (i + m)%nat.
Proof.
  revert i. induction m as [|m IH]; intros i; cbn.
  - destruct (decide (0 < 1)%nat); [lia|lia].
  - destruct (decide (0 < 0)%nat); [lia|]. rewrite IH. lia.
Qed.

(** Whatever the draws, the trial lands in the last category when no
    entry of the vector handed to [multinomial] is positive, and
    [argmax] returns the last index. *)
Lemma sample_last (preds : list R) (t : R) (rnd : nat → R) :
  preds ≠ [] → Forall (λ p, 0 < p ∧ p <= 1) preds → 0 < t →
  (∀ n, rnd n < 1) →
  sample preds t rnd = Ok (length preds - 1)%nat.
Proof.
  intros Hne Hp Ht Hrnd. unfold sample, multinomial. cbv zeta.
  pose proof (scaled_log_nonpos preds t Hp Ht) as Hlog.
  destruct (Rlt_dec _ _) as [Hbad|_].
  { exfalso.
    pose proof (Rsum_nonpos _
      (Forall_take _ (length (scaled_log preds t) - 1) _ Hlog)) as Hs.
    assert (0 < 1 / 10 ^ 12).
    { apply Rdiv_lt_0_compat; [lra|]. apply pow_lt. lra. }
    lra. }
  rewrite bind_Ok.
  rewrite multinomial_trial_last; [|done| |lra|done].
  2:{ unfold scaled_log. by intros ?%fmap_nil_inv. }
  unfold argmax. cbn [concat]. rewrite app_nil_r.
  unfold scaled_log. rewrite length_fmap.
  destruct preds as [|p [|p' preds]]; [done|done|].
  cbn [length Nat.sub replicate app].
  by rewrite argmax_from_last.
Qed.
End TemperatureProofs.

(** C8. Evaluation of the temperature sampler on every probability vector
    with positive entries and every temperature [t > 0]: the vector handed
    to [np.random.multinomial] is [log(preds) / t], none of whose entries
    is positive; it is neither exponentiated nor renormalised, and the
    index returned is the last one whatever the draws, not an index drawn
    according to [preds]. *)
Theorem temperature_sample_last_index (preds : list R) (t : R) (rnd : nat → R) :
  preds ≠ [] → Forall (λ p, 0 < p ∧ p <= 1)%R preds → (0 < t)%R →
  (∀ n, rnd n < 1)%R →
  Forall (λ v, v <= 0)%R (Temperature.scaled_log preds t) ∧
  Temperature.sample preds t rnd = Ok (length preds - 1).
Proof.
  intros Hne Hp Ht Hrnd. split.
  - by apply scaled_log_nonpos.
  - by apply sample_last.
Qed.

Lemma temperature_sample_last_index_witness :
  Forall (λ v, v <= 0)%R (Temperature.scaled_log [1 / 2; 1 / 2]%R 1%R) ∧
  Temperature.sample [1 / 2; 1 / 2]%R 1%R (λ _, 0%R) = Ok (length [1 / 2; 1 / 2]%R - 1).
Proof.
  apply (temperature_sample_last_index [1 / 2; 1 / 2]%R 1%R (λ _, 0%R)).
  - discriminate.
  - repeat constructor; lra.
  - lra.
  - intros _. lra.
Defined.

(** ** The model run on small inputs *)

Example get_batches_two_slices :
  Batcher.get_batches [1;2;3;4;5;6;7;8;9;10;11;12;13]%Z 2 3 =
  Ok [ ([[1;2;3];[7;8;9]], [[2;3;4];[8;9;10]]);
       ([[4;5;6];[10;11;12]], [[5;6;1];[11;12;7]]) ]%Z.
Proof. vm_compute. reflexivity. Qed.

Example get_batches_zero_steps :
  Batcher.get_batches [1;2;3]%Z 2 0 = Raise ZeroDivisionError.
Proof. reflexivity. Qed.

Example one_hot_encode_2x2 :
  OneHot.one_hot_encode [[0;2];[1;1]]%Z 3 =
  Ok [[[1;0;0];[0;0;1]]; [[0;1;0];[0;1;0]]]%Z.
Proof. vm_compute. reflexivity. Qed.

Example one_hot_encode_out_of_range :
  OneHot.one_hot_encode [[0;3]]%Z 3 = Raise IndexError.
Proof. vm_compute. reflexivity. Qed.

Example predict_top_k_two :
  Sampler.predict Sampler.abc_net 97%N None (Some 2) (1 # 2)%Q = Ok (98%N, tt).
Proof. vm_compute. reflexivity. Qed.

Example predict_top_k_one :
  Sampler.predict Sampler.abc_net 97%N None (Some 1) (1 # 2)%Q = Raise TypeError.
Proof. vm_compute. reflexivity. Qed.

Example predict_unknown_symbol :
  Sampler.predict Sampler.abc_net 100%N None None (1 # 2)%Q = Raise KeyError.
Proof. vm_compute. reflexivity. Qed.

Example sample_two_after_prime :
  Sampler.sample Sampler.abc_net 2 [97; 98]%N (Some 2) (λ t, Z.of_nat t # 4)%Q
  = Ok [97; 98; 98; 98; 97]%N.
Proof. vm_compute. reflexivity. Qed.

Example sample_abc_returns (size : nat) :
  ∃ out, Sampler.sample Sampler.abc_net size [97]%N (Some 2) (λ _, 0%Q) = Ok out
         ∧ length out = size + 2.
Proof.
  destruct (sample_Ok Sampler.abc_net (Some 2) (λ _, 0%Q) size [97]%N)
    as [out Hout]; try done.
  - apply abc_net_shaped.
  - cbn. lia.
  - by repeat constructor.
  - exists out. split; [done|].
    apply sample_inv in Hout as (gen & -> & Hlen & _).
    rewrite length_app, Hlen. cbn. lia.
Qed.

Example sample_no_prime :
  Sampler.sample Sampler.abc_net 2 [] None (λ _, 0%Q) = Raise UnboundLocalError.
Proof. reflexivity. Qed.

(** A corpus of 45 symbols gives two windows; the statement of
    lstm-model-1.ipynb sets one cell per row of [y], the bare subscription
    of the unnamed revision sets none. *)
Example vectorization_of_45_symbols :
  let text := N.of_nat <$> (seq 97 3 ++ seq 97 3 ++ seq 97 20 ++ seq 97 19) in
  snd <$> match Keras.vectorization text with
          | Ok xy => Some xy
          | Raise _ => None
          end = Some (Keras.zeros2 2 20) ∧
  snd <$> match Keras.vectorization_assigning text with
          | Ok xy => Some xy
          | Raise _ => None
          end = Some [<[14 := true]> (replicate 20 false);
                      <[17 := true]> (replicate 20 false)].
Proof. vm_compute. split; reflexivity. Qed.

(** * Further properties *)

(** ** Mini-batches: errors, coverage, targets *)

Lemma concat_chunks {A : Type} (k w : nat) (l : list A) :
  concat (chunks k w l) = take (k * w) l.
Proof.
  revert l. induction k as [|k IH]; intros l; cbn; [done|].
  rewrite IH. by rewrite take_take_drop.
Qed.

Lemma fmap_lookup_seq {A : Type} (d : A) (l : list A) :
  (λ i, default d (l !! i)) <$> seq 0 (length l) = l.
Proof.
  apply list_eq. intros i. rewrite list_lookup_fmap.
  destruct (l !! i) as [x|] eqn:Hx.
  - rewrite lookup_seq_lt by (by apply lookup_lt_Some in Hx). cbn. by rewrite Hx.
  - rewrite lookup_seq_ge by (by apply lookup_ge_None in Hx). done.
Qed.

Lemma slices_of_row {A : Type} (nb w : nat) (r : list A) :
  (λ k, drop (k * w) (take (k * w + w) r)) <$> seq 0 nb = chunks nb w r.
Proof.
  apply list_eq. intros k. rewrite list_lookup_fmap.
  destruct (decide (k < nb)) as [Hk|Hk].
  - rewrite lookup_seq_lt, chunks_lookup by done. cbn.
    by rewrite take_drop_commute.
  - rewrite lookup_seq_ge by lia. cbn. symmetry. apply lookup_ge_None.
    rewrite length_chunks. lia.
Qed.


(** X2. The inputs tile the truncated corpus: reading, row after row, the
    [i]-th rows of the successive inputs gives back the corpus up to the
    truncation point, each of its symbols once. *)
Theorem batches_tile_corpus (arr : list Z) (n_seqs n_steps : nat) :
  1 ≤ n_seqs → 1 ≤ n_steps →
  ∃ bs, Batcher.get_batches arr n_seqs n_steps = Ok bs ∧
    concat ((λ i, concat ((λ b : matrix * matrix, default [] (b.1 !! i)) <$> bs))
              <$> seq 0 n_seqs)
    = take (length arr / (n_seqs * n_steps) * (n_seqs * n_steps)) arr.
Proof.
  intros Hseqs Hsteps. eexists. split; [by apply get_batches_closed|].
  set (nb := length arr / (n_seqs * n_steps)).
  set (R := Batcher.rows_of arr n_seqs n_steps).
  assert ((λ i, concat ((λ b : matrix * matrix, default [] (b.1 !! i)) <$>
                        (Batcher.batch_at R n_steps nb <$> seq 0 nb)))
          <$> seq 0 n_seqs = R) as ->.
  { etrans; [|apply (fmap_lookup_seq [] R)].
    unfold R at 3. rewrite (rows_length arr n_seqs n_steps). apply list_fmap_ext.
    intros _ i _. rewrite <- list_fmap_compose.
    destruct (R !! i) as [r|] eqn:Hr.
    - assert (length r = nb * n_steps) as Hlen.
      { pose proof (rows_width arr n_seqs n_steps Hseqs Hsteps) as Hw.
        by eapply Forall_lookup_1 in Hw. }
      erewrite list_fmap_ext; [rewrite (slices_of_row nb n_steps r)|].
      + rewrite concat_chunks. cbn. apply take_ge. lia.
      + intros _ k _. cbn. unfold cols. by rewrite list_lookup_fmap, Hr.
    - cbn. erewrite list_fmap_ext; [|intros _ k _; cbn; unfold cols;
        by rewrite list_lookup_fmap, Hr].
      clear. induction (seq 0 nb) as [|k ks IH]; [done|]. cbn. apply IH. }
  subst R. unfold Batcher.rows_of. fold nb. rewrite concat_chunks.
  apply take_ge. pose proof (truncated_length arr n_seqs n_steps) as Hl.
  fold nb in Hl. rewrite Hl. lia.
Qed.

Lemma batches_tile_corpus_witness :
  ∃ bs, Batcher.get_batches [1;2;3;4;5;6;7;8;9;10;11;12;13]%Z 2 3 = Ok bs ∧
    concat ((λ i, concat ((λ b : matrix * matrix, default [] (b.1 !! i)) <$> bs))
              <$> seq 0 2)
    = take (length [1;2;3;4;5;6;7;8;9;10;11;12;13]%Z / (2 * 3) * (2 * 3))
        [1;2;3;4;5;6;7;8;9;10;11;12;13]%Z.
Proof.
  apply (batches_tile_corpus [1;2;3;4;5;6;7;8;9;10;11;12;13]%Z 2 3); lia.
Defined.

Lemma batch_at_target_cell (arr : list Z) (n_seqs n_steps k i j : nat) :
  1 ≤ n_seqs → 1 ≤ n_steps →
  let nb := length arr / (n_seqs * n_steps) in
  i < n_seqs → k < nb → j < n_steps →
  (Batcher.batch_at (Batcher.rows_of arr n_seqs n_steps) n_steps nb k).2 !! i
    ≫= (.!! j)
  = arr !! (i * (nb * n_steps) + (k * n_steps + j + 1) `mod` (nb * n_steps)).
Proof.
  intros Hseqs Hsteps nb Hi Hk Hj.
  set (R := Batcher.rows_of arr n_seqs n_steps).
  destruct (lookup_lt_is_Some_2 R i) as [r Hr].
  { unfold R. by rewrite rows_length. }
  assert (length r = nb * n_steps) as Hlen.
  { pose proof (rows_width arr n_seqs n_steps Hseqs Hsteps) as Hw.
    by eapply Forall_lookup_1 in Hw. }
  assert (∀ c, c < nb * n_steps → r !! c = arr !! (i * (nb * n_steps) + c)) as Hcell.
  { intros c Hc.
    pose proof (rows_cell arr n_seqs n_steps Hseqs Hsteps i c Hi Hc) as H.
    fold R in H. by rewrite Hr in H. }
  assert (length arr / (n_seqs * n_steps) * (n_seqs * n_steps) ≤ length arr) as Hkept.
  { rewrite Nat.mul_comm. apply Nat.Div0.mul_div_le. }
  fold nb in Hkept.
  assert (k * n_steps + n_steps ≤ nb * n_steps) as Hslice by nia.
  unfold Batcher.batch_at, Batcher.shifted. cbn [snd].
  rewrite lookup_zip_with. unfold cols. rewrite !list_lookup_fmap, Hr. cbn.
  destruct (decide (j + 1 < n_steps)) as [Hin|Hlast].
  - rewrite lookup_app_l by (rewrite length_drop, length_drop, length_take; lia).
    rewrite !lookup_drop. rewrite lookup_take_lt by lia.
    rewrite Nat.mod_small by lia. rewrite Hcell by lia. f_equal. lia.
  - rewrite lookup_app_r by (rewrite length_drop, length_drop, length_take; lia).
    rewrite !length_drop, length_take.
    replace (j - ((k * n_steps + n_steps) `min` length r - k * n_steps - 1))
      with 0 by lia.
    cbn. unfold Batcher.next_index.
    assert (i * (nb * n_steps) + nb * n_steps ≤ n_seqs * (nb * n_steps)) by nia.
    destruct (decide (S k < nb)) as [Hnext|Hend].
    + assert ((k * n_steps + j + 1) `mod` (nb * n_steps) = k * n_steps + n_steps) as ->.
      { rewrite Nat.mod_small by nia. lia. }
      rewrite Hcell by nia.
      destruct (lookup_lt_is_Some_2 arr (i * (nb * n_steps) + (k * n_steps + n_steps)))
        as [z Hz]; [nia|]. rewrite Hz. reflexivity.
    + assert ((k * n_steps + j + 1) `mod` (nb * n_steps) = 0) as ->.
      { replace (k * n_steps + j + 1) with (nb * n_steps) by nia.
        apply Nat.Div0.mod_same. }
      rewrite Hcell by nia.
      destruct (lookup_lt_is_Some_2 arr (i * (nb * n_steps) + 0)) as [z Hz]; [nia|].
      rewrite Hz. reflexivity.
Qed.

(** X3. Every target is read from the corpus: with [L] the row width of the
    reshaped corpus, cell [(i, j)] of the [k]-th target is the corpus symbol
    at offset [(k*n_steps + j + 1) mod L] of row [i], so the targets are the
    rows rotated left by one position and no cell keeps the zero written by
    [np.zeros_like]. *)
Theorem get_batches_target_cells (arr : list Z) (n_seqs n_steps : nat) :
  1 ≤ n_seqs → 1 ≤ n_steps →
  let L := length arr / (n_seqs * n_steps) * n_steps in
  ∃ bs, Batcher.get_batches arr n_seqs n_steps = Ok bs ∧
    ∀ k x y, bs !! k = Some (x, y) →
      length y = n_seqs ∧ Forall (λ r, length r = n_steps) y ∧
      ∀ i j, i < n_seqs → j < n_steps →
        i * L + (k * n_steps + j + 1) `mod` L < length arr ∧
        y !! i ≫= (.!! j) = arr !! (i * L + (k * n_steps + j + 1) `mod` L).
Proof.
  intros Hseqs Hsteps L. eexists. split; [by apply get_batches_closed|].
  intros k x y Hb. apply lookup_batches in Hb as [Hk Hb].
  assert (y = (Batcher.batch_at (Batcher.rows_of arr n_seqs n_steps) n_steps
                 (length arr / (n_seqs * n_steps)) k).2) as -> by by rewrite <- Hb.
  split; [|split].
  - unfold Batcher.batch_at, Batcher.shifted, cols. cbn [snd].
    rewrite length_zip_with, !length_fmap, rows_length. lia.
  - unfold Batcher.batch_at. cbn [snd].
    apply shifted_width; [done|]. by apply slice_width.
  - intros i j Hi Hj. split; [|by apply batch_at_target_cell].
    assert (length arr / (n_seqs * n_steps) * (n_seqs * n_steps) ≤ length arr).
    { rewrite Nat.mul_comm. apply Nat.Div0.mul_div_le. }
    assert (0 < L) by (subst L; nia).
    pose proof (Nat.mod_upper_bound (k * n_steps + j + 1) L ltac:(lia)).
    assert (i * L + L ≤ n_seqs * L) by nia.
    subst L. nia.
Qed.

Lemma get_batches_target_cells_witness :
  let L := length [1;2;3;4;5;6;7;8;9;10;11;12;13]%Z / (2 * 3) * 3 in
  ∃ bs, Batcher.get_batches [1;2;3;4;5;6;7;8;9;10;11;12;13]%Z 2 3 = Ok bs ∧
    ∀ k x y, bs !! k = Some (x, y) →
      length y = 2 ∧ Forall (λ r, length r = 3) y ∧
      ∀ i j, i < 2 → j < 3 →
        i * L + (k * 3 + j + 1) `mod` L < length [1;2;3;4;5;6;7;8;9;10;11;12;13]%Z ∧
        y !! i ≫= (.!! j)
        = [1;2;3;4;5;6;7;8;9;10;11;12;13]%Z !! (i * L + (k * 3 + j + 1) `mod` L).
Proof.
  apply (get_batches_target_cells [1;2;3;4;5;6;7;8;9;10;11;12;13]%Z 2 3); lia.
Defined.

(** ** One-hot encoding: labels outside [0, n_labels) *)

Section OneHotRange.
Import OneHot.
Variable n_labels : nat.

Lemma norm_index_wrap (v : Z) :
  (- Z.of_nat n_labels ≤ v < Z.of_nat n_labels)%Z →
  norm_index n_labels v = Ok (Z.to_nat (v `mod` Z.of_nat n_labels)).
Proof.
  intros Hv. unfold norm_index.
  destruct (decide (0 ≤ v < Z.of_nat n_labels)%Z) as [Hpos|Hneg].
  - by rewrite Z.mod_small.
  - destruct (decide (- Z.of_nat n_labels ≤ v < 0)%Z) as [Hw|]; [|lia].
    do 2 f_equal. apply (Z.mod_unique _ _ (-1)); lia.
Qed.

Lemma norm_index_raises (v : Z) :
  ¬ (- Z.of_nat n_labels ≤ v < Z.of_nat n_labels)%Z →
  norm_index n_labels v = Raise IndexError.
Proof.
  intros Hv. unfold norm_index.
  destruct (decide _); [lia|]. destruct (decide _); [lia|done].
Qed.

Lemma set_cells_from_any (flat : list Z) (filled : matrix) :
  for_state (set_cell 1) (zip (seq (length filled) (length flat)) flat)
    (filled ++ zeros (length flat) n_labels)
  = if decide (Forall (λ v, (- Z.of_nat n_labels ≤ v < Z.of_nat n_labels)%Z) flat)
    then Ok (filled ++
             ((λ v, <[Z.to_nat (v `mod` Z.of_nat n_labels) := 1%Z]>
                      (replicate n_labels 0%Z)) <$> flat))
    else Raise IndexError.
Proof.
  revert filled. induction flat as [|v flat IH]; intros filled.
  - cbn. destruct (decide _) as [|Hn]; [done|]. by destruct Hn.
  - change (zip (seq (length filled) (length (v :: flat))) (v :: flat))
      with ((length filled, v) :: zip (seq (S (length filled)) (length flat)) flat).
    change (zeros (length (v :: flat)) n_labels)
      with (replicate n_labels 0%Z :: zeros (length flat) n_labels).
    rewrite for_state_cons. unfold set_cell at 2. cbn [fst snd].
    rewrite lookup_app_r, Nat.sub_diag by done. cbn [lookup list_lookup].
    rewrite length_replicate.
    destruct (decide (- Z.of_nat n_labels ≤ v < Z.of_nat n_labels)%Z) as [Hv|Hv].
    + rewrite norm_index_wrap, !bind_Ok by done.
      rewrite insert_app_r_alt, Nat.sub_diag by done. cbn [insert list_insert].
      set (u := <[Z.to_nat (v `mod` Z.of_nat n_labels) := 1%Z]> (replicate n_labels 0%Z)).
      specialize (IH (filled ++ [u])).
      rewrite length_app in IH. cbn [length] in IH. rewrite Nat.add_1_r in IH.
      rewrite <- app_assoc in IH. cbn [app] in IH. rewrite IH.
      destruct (decide (Forall _ flat)) as [Hf|Hf];
        destruct (decide (Forall _ (v :: flat))) as [Hvf|Hvf]; try done.
      * by rewrite <- app_assoc.
      * destruct Hvf. by constructor.
      * destruct Hf. by inversion Hvf.
    + rewrite norm_index_raises by done. cbn.
      destruct (decide (Forall _ (v :: flat))) as [Hvf|]; [|done].
      destruct Hv. by inversion Hvf.
Qed.

Lemma Forall_concat_iff {A : Type} (P : A → Prop) (a : list (list A)) :
  Forall P (concat a) ↔ Forall (Forall P) a.
Proof.
  induction a as [|r a IH]; cbn.
  - split; constructor.
  - rewrite Forall_app, Forall_cons, IH. done.
Qed.

Lemma one_hot_encode_any (arr : matrix) (c : nat) :
  Forall (λ r, length r = c) arr →
  one_hot_encode arr n_labels
  = if decide (Forall (Forall (λ v, (- Z.of_nat n_labels ≤ v < Z.of_nat n_labels)%Z)) arr)
    then Ok ((λ r : list Z,
                (λ v, <[Z.to_nat (v `mod` Z.of_nat n_labels) := 1%Z]>
                        (replicate n_labels 0%Z)) <$> r) <$> arr)
    else Raise IndexError.
Proof.
  intros Hrect. unfold one_hot_encode.
  rewrite (shape1_rect c), <- (length_concat_rect c) by done.
  unfold zeros at 2. rewrite length_replicate.
  unfold set_cells. rewrite length_seq.
  destruct (decide (length (concat arr) = length (concat arr))); [|done].
  pose proof (set_cells_from_any (concat arr) []) as Hset.
  cbn [length app] in Hset. rewrite Hset.
  destruct (decide (Forall _ (concat arr))) as [Hf|Hf];
    destruct (decide (Forall (Forall _) arr)) as [Hff|Hff]; try done.
  - cbn. destruct Hrect as [|r a Hr Ha]; [done|].
    cbn [shape1]. rewrite Hr.
    by rewrite (chunks_concat _ c (r :: a)) by (by constructor).
  - destruct Hff. by apply Forall_concat_iff.
  - destruct Hf. by apply Forall_concat_iff.
Qed.
End OneHotRange.

(** X4. [one_hot_encode] accepts negative labels: on a rectangular array
    whose entries lie in [-n_labels, n_labels) it returns, and the vector of
    an entry [v] has its one at position [v mod n_labels], so the label
    [v - n_labels] is encoded like the label [v]. *)
Theorem one_hot_encode_negative_labels (n_labels : nat) (arr : matrix) (c : nat) :
  Forall (λ r, length r = c) arr →
  Forall (Forall (λ v, (- Z.of_nat n_labels ≤ v < Z.of_nat n_labels)%Z)) arr →
  OneHot.one_hot_encode arr n_labels
  = Ok ((λ r : list Z,
           (λ v, <[Z.to_nat (v `mod` Z.of_nat n_labels) := 1%Z]>
                   (replicate n_labels 0%Z)) <$> r) <$> arr).
Proof.
  intros Hrect Hrange. rewrite (one_hot_encode_any n_labels arr c Hrect).
  by destruct (decide _).
Qed.

Lemma one_hot_encode_negative_labels_witness :
  OneHot.one_hot_encode [[0; -1]; [-3; 2]]%Z 3
  = Ok ((λ r : list Z,
           (λ v, <[Z.to_nat (v `mod` Z.of_nat 3) := 1%Z]>
                   (replicate 3 0%Z)) <$> r) <$> [[0; -1]; [-3; 2]]%Z).
Proof.
  apply (one_hot_encode_negative_labels 3 [[0; -1]; [-3; 2]]%Z 2).
  - repeat constructor.
  - repeat constructor; lia.
Defined.



(** ** Vocabulary: arbitrary token tuples, encoding *)

Lemma enumerate_snoc {A : Type} (xs : list A) (x : A) :
  enumerate (xs ++ [x]) = enumerate xs ++ [(length xs, x)].
Proof.
  unfold enumerate. rewrite length_app. cbn [length].
  rewrite seq_app. cbn [seq]. rewrite Nat.add_0_l.
  rewrite zip_with_app by (by rewrite length_seq). done.
Qed.

Lemma char2int_snoc (tokens : list char) (c : char) :
  char2int (tokens ++ [c]) = <[c := length tokens]> (char2int tokens).
Proof.
  unfold char2int, dict_of. rewrite enumerate_snoc, fmap_app, foldl_app. done.
Qed.

Lemma char2int_last (tokens : list char) (c : char) (i : nat) :
  char2int tokens !! c = Some i
  ↔ tokens !! i = Some c ∧ ∀ j, i < j → tokens !! j ≠ Some c.
Proof.
  revert i. induction tokens as [|x tokens IH] using rev_ind; intros i.
  - unfold char2int, dict_of. cbn. rewrite lookup_empty. split; [done|].
    by intros [? _].
  - rewrite char2int_snoc. destruct (decide (c = x)) as [->|Hne].
    + rewrite lookup_insert_eq. split.
      * intros [= <-]. split.
        -- by rewrite lookup_app_r, Nat.sub_diag.
        -- intros j Hj.
           assert ((tokens ++ [x]) !! j = None) as ->; [|done].
           apply lookup_ge_None. rewrite length_app. cbn. lia.
      * intros [Hi Hlast]. f_equal.
        pose proof (lookup_lt_Some _ _ _ Hi) as Hlt.
        rewrite length_app in Hlt. cbn in Hlt.
        destruct (decide (i = length tokens)) as [|Hi']; [done|].
        destruct (Hlast (length tokens)); [lia|].
        by rewrite lookup_app_r, Nat.sub_diag.
    + rewrite lookup_insert_ne by done. rewrite IH. split.
      * intros [Hi Hlast]. split; [by apply lookup_app_l_Some|].
        intros j Hj. destruct (decide (j < length tokens)) as [Hlt|Hge].
        -- rewrite lookup_app_l by done. by apply Hlast.
        -- rewrite lookup_app_r by lia.
           destruct (j - length tokens) as [|n]; cbn; [congruence|done].
      * intros [Hi Hlast].
        assert (i < length tokens) as Hlt.
        { destruct (decide (i < length tokens)) as [|Hge]; [done|].
          rewrite lookup_app_r in Hi by lia.
          destruct (i - length tokens) as [|n]; cbn in Hi; [congruence|done]. }
        split; [by rewrite lookup_app_l in Hi|].
        intros j Hj Hc. apply (Hlast j Hj). by apply lookup_app_l_Some.
Qed.

Lemma char2int_decodes (tokens : list char) (c : char) :
  c ∈ tokens → ∃ i, char2int tokens !! c = Some i ∧ tokens !! i = Some c.
Proof.
  intros Hc. destruct (char2int_is_Some tokens c Hc) as [i Hi].
  exists i. split; [done|]. by apply char2int_inv.
Qed.

(** X6. The dictionaries of [CharRNN.__init__] for an arbitrary tuple of
    tokens, repeated ones included: [int2char] is the tuple itself,
    [char2int] sends a token to its last position, hence
    [int2char[char2int[c]] = c] for every token, whereas
    [char2int[int2char[i]] = i] only at last occurrences. *)
Theorem char2int_last_position (tokens : list char) :
  (∀ i, int2char tokens !! i = tokens !! i) ∧
  (∀ c i, char2int tokens !! c = Some i
          ↔ tokens !! i = Some c ∧ ∀ j, i < j → tokens !! j ≠ Some c) ∧
  (∀ c, c ∈ tokens → char2int tokens !! c ≫= (int2char tokens !!.) = Some c) ∧
  (∀ i c, tokens !! i = Some c →
     (int2char tokens !! i ≫= (char2int tokens !!.) = Some i
      ↔ ∀ j, i < j → tokens !! j ≠ Some c)).
Proof.
  split; [apply int2char_lookup|]. split; [apply char2int_last|]. split.
  - intros c Hc. destruct (char2int_decodes tokens c Hc) as (i & -> & Hi).
    cbn. by rewrite int2char_lookup.
  - intros i c Hi. rewrite int2char_lookup, Hi. cbn.
    rewrite char2int_last. split; [by intros [_ ?]|done].
Qed.

Lemma for_each_Raise {A B : Type} (f : A → result B) (e : exn) (xs : list A) :
  (∀ x, x ∈ xs → (∃ y, f x = Ok y) ∨ f x = Raise e) →
  (∃ x, x ∈ xs ∧ f x = Raise e) →
  for_each f xs = Raise e.
Proof.
  induction xs as [|x xs IH]; intros Hall (x' & Hx' & Hraise).
  - by apply elem_of_nil in Hx'.
  - cbn [for_each]. destruct (Hall x) as [[y Hy]|Hy]; [left| |by rewrite Hy].
    rewrite Hy, bind_Ok. rewrite IH; [done| |].
    + intros z Hz. apply Hall. by right.
    + apply elem_of_cons in Hx' as [->|Hx']; [congruence|]. by exists x'.
Qed.

(** X7. Encoding the text with [char2int] and decoding with [int2char] is
    the identity: when every symbol of the text is a token, [encode]
    returns an array of the length of the text whose entries are valid
    positions of the token tuple and decode to the symbols of the text. *)
Theorem encode_round_trip (chars text : list char) :
  Forall (λ ch, ch ∈ chars) text →
  ∃ arr, encode chars text = Ok arr ∧ length arr = length text ∧
    Forall (λ v, (0 ≤ v < Z.of_nat (length chars))%Z) arr ∧
    ∀ p, arr !! p ≫= (λ v, int2char chars !! Z.to_nat v) = text !! p.
Proof.
  intros Hin. rewrite Forall_forall in Hin.
  exists ((λ ch, Z.of_nat (default 0 (char2int chars !! ch))) <$> text).
  split; [|split; [|split]].
  - unfold encode. apply for_each_Ok. intros ch Hch.
    destruct (char2int_decodes chars ch (Hin ch Hch)) as (i & Hi & _).
    by rewrite (getitem_Some _ _ _ Hi), Hi.
  - by rewrite length_fmap.
  - apply Forall_fmap, Forall_forall. intros ch Hch. cbn.
    destruct (char2int_decodes chars ch (Hin ch Hch)) as (i & Hi & Hc).
    rewrite Hi. cbn. apply lookup_lt_Some in Hc. lia.
  - intros p. rewrite list_lookup_fmap.
    destruct (text !! p) as [ch|] eqn:Hp; [|done]. cbn.
    assert (ch ∈ text) as Hch by by eapply list_elem_of_lookup_2.
    destruct (char2int_decodes chars ch (Hin ch Hch)) as (i & Hi & Hc).
    rewrite Hi. cbn. by rewrite Nat2Z.id, int2char_lookup.
Qed.

Lemma encode_round_trip_witness :
  ∃ arr, encode [97; 98; 97; 99]%N [99; 97; 98]%N = Ok arr ∧
    length arr = length [99; 97; 98]%N ∧
    Forall (λ v, (0 ≤ v < Z.of_nat (length [97; 98; 97; 99]%N))%Z) arr ∧
    ∀ p, arr !! p ≫= (λ v, int2char [97; 98; 97; 99]%N !! Z.to_nat v)
         = [99; 97; 98]%N !! p.
Proof.
  apply (encode_round_trip [97; 98; 97; 99]%N [99; 97; 98]%N).
  repeat constructor; set_solver.
Defined.

Lemma getitem_char2int_missing (chars : list char) (x : char) :
  x ∉ chars → getitem (char2int chars) x = Raise KeyError.
Proof.
  intros Hx. unfold getitem.
  destruct (char2int chars !! x) as [i|] eqn:Hi; [|done].
  apply char2int_inv in Hi. destruct Hx. by eapply list_elem_of_lookup_2.
Qed.

(** X8. When some symbol of the text is not a token, the subscription
    [char2int[ch]] fails and [encode] raises [KeyError]. *)
Theorem encode_unknown_symbol (chars text : list char) :
  Exists (λ ch, ch ∉ chars) text → encode chars text = Raise KeyError.
Proof.
  intros Hex. apply Exists_exists in Hex as (ch & Hch & Hout).
  unfold encode. apply for_each_Raise.
  - intros x _. destruct (decide (x ∈ chars)) as [Hx|Hx].
    + left. destruct (char2int_decodes chars x Hx) as (i & Hi & _).
      rewrite (getitem_Some _ _ _ Hi). by eexists.
    + right. by rewrite getitem_char2int_missing.
  - exists ch. split; [done|]. by rewrite getitem_char2int_missing.
Qed.

Lemma encode_unknown_symbol_witness :
  encode [97; 98]%N [97; 120; 98]%N = Raise KeyError.
Proof.
  apply (encode_unknown_symbol [97; 98]%N [97; 120; 98]%N).
  apply Exists_cons_tl, Exists_cons_hd. intros Hin.
  repeat (apply elem_of_cons in Hin as [Hin|Hin]; [done|]).
  by apply elem_of_nil in Hin.
Defined.

(** ** Prediction: the sampling law, unknown symbols *)

Section SamplingLaw.
Import Sampler.
Context {H : Type}.
Implicit Types (net : CharRNN H) (top_k : option nat).

Lemma one_hot_index (V i : nat) :
  i < V →
  OneHot.one_hot_encode [[Z.of_nat i]] V = Ok [[<[i := 1%Z]> (replicate V 0%Z)]].
Proof.
  intros Hi. rewrite (one_hot_encode_closed V [[Z.of_nat i]] 1).
  - cbn. by rewrite Nat2Z.id.
  - by repeat constructor.
  - repeat constructor; lia.
Qed.

Lemma softmax_row net x h :
  softmax_shaped net →
  ∃ row, softmax_forward net x h = ([row], (softmax_forward net x h).2) ∧
    length row = length (chars net) ∧ Forall (λ q, 0 < q)%Q row.
Proof.
  intros Hnet. destruct (Hnet x h) as (row & Hp & Hlen & Hpos).
  exists row. split; [|done].
  destruct (softmax_forward net x h) as [p h1]. cbn in *. by subst p.
Qed.

Lemma predict_unknown net ch h top_k u :
  ch ∉ chars net → predict net ch h top_k u = Raise KeyError.
Proof.
  intros Hch. unfold predict. by rewrite getitem_char2int_missing.
Qed.

Lemma prime_loop_unknown net top_k rnd (good rest : list char) (bad : char)
    (s : sampling H) :
  softmax_shaped net → admissible net top_k → unit_draws rnd →
  Forall (λ c, c ∈ chars net) good → bad ∉ chars net →
  for_state (step_predict net top_k rnd) (good ++ bad :: rest) s = Raise KeyError.
Proof.
  intros Hnet Hadm Hrnd Hgood Hbad. revert s.
  induction Hgood as [|c good Hc _ IH]; intros s.
  - cbn [app]. rewrite for_state_cons. unfold step_predict.
    by rewrite predict_unknown.
  - cbn [app]. rewrite for_state_cons. unfold step_predict at 2.
    destruct (predict_Ok net c (Some (s_h s)) top_k (rnd (s_draws s)))
      as (c' & h' & -> & _); try done; [apply Hrnd|].
    rewrite !bind_Ok. apply IH.
Qed.
End SamplingLaw.



(** X10. [predict] with [top_k=None] on a vocabulary of at least two
    symbols samples the whole softmax row: the symbol returned is
    [chars[j]] for the position [j] whose interval of cumulative
    probability, divided by the total, contains the draw [u]. *)
Theorem predict_full_law {H : Type} (net : Sampler.CharRNN H) (ch : char)
    (h : option H) (u : Q) (i0 : nat) :
  Sampler.softmax_shaped net →
  char2int (Sampler.chars net) !! ch = Some i0 →
  2 ≤ length (Sampler.chars net) →
  (0 <= u)%Q → (u < 1)%Q →
  let out := Sampler.softmax_forward net
               [[<[i0 := 1%Z]> (replicate (length (Sampler.chars net)) 0%Z)]]
               (default (Sampler.init_hidden net 1) h) in
  ∃ row j c,
    out.1 = [row] ∧
    Sampler.predict net ch h None u = Ok (c, out.2) ∧
    Sampler.chars net !! j = Some c ∧
    (Sampler.Qsum (take j row) / Sampler.Qsum row <= u)%Q ∧
    (u < Sampler.Qsum (take (S j) row) / Sampler.Qsum row)%Q.
Proof.
  intros Hnet Hi0 HV Hu0 Hu1 out.
  assert (i0 < length (Sampler.chars net)) as Hlt.
  { apply char2int_inv in Hi0. by apply lookup_lt_Some in Hi0. }
  destruct (softmax_row net
              [[<[i0 := 1%Z]> (replicate (length (Sampler.chars net)) 0%Z)]]
              (default (Sampler.init_hidden net 1) h) Hnet)
    as (row & Hout & Hlen & Hpos).
  fold out in Hout.
  destruct (predict_full_draw net ch h u i0 _ row out.2 Hi0
              (one_hot_index _ _ Hlt) Hout Hlen Hpos ltac:(lia) Hu0 Hu1)
    as (j & c & Hpred & Hc & Hlo & Hhi).
  exists row, j, c. split; [by rewrite Hout|]. done.
Qed.

Lemma predict_full_law_witness :
  let out := Sampler.softmax_forward Sampler.abc_net
               [[<[1 := 1%Z]> (replicate (length (Sampler.chars Sampler.abc_net)) 0%Z)]]
               (default (Sampler.init_hidden Sampler.abc_net 1) None) in
  ∃ row j c,
    out.1 = [row] ∧
    Sampler.predict Sampler.abc_net 98%N None None (9 # 10)%Q = Ok (c, out.2) ∧
    Sampler.chars Sampler.abc_net !! j = Some c ∧
    (Sampler.Qsum (take j row) / Sampler.Qsum row <= 9 # 10)%Q ∧
    (9 # 10 < Sampler.Qsum (take (S j) row) / Sampler.Qsum row)%Q.
Proof.
  apply (predict_full_law Sampler.abc_net 98%N None (9 # 10)%Q 1).
  - exact abc_net_shaped.
  - reflexivity.
  - cbn. lia.
  - unfold Qle. cbn. lia.
  - unfold Qlt. cbn. lia.
Defined.

(** X11. A symbol outside the vocabulary: [predict] raises [KeyError] at
    [char2int[char]] before anything else is computed, and [sample] raises
    [KeyError] when its prime holds such a symbol (the symbols before it
    being predicted without error). *)
Theorem sample_unknown_symbol {H : Type} (net : Sampler.CharRNN H)
    (size : nat) (good rest : list char) (bad : char) (top_k : option nat)
    (rnd : nat → Q) :
  Sampler.softmax_shaped net → Sampler.admissible net top_k →
  Sampler.unit_draws rnd →
  Forall (λ c, c ∈ Sampler.chars net) good → bad ∉ Sampler.chars net →
  (∀ h u, Sampler.predict net bad h top_k u = Raise KeyError) ∧
  Sampler.sample net size (good ++ bad :: rest) top_k rnd = Raise KeyError.
Proof.
  intros Hnet Hadm Hrnd Hgood Hbad. split.
  - intros h u. by apply predict_unknown.
  - unfold Sampler.sample. by rewrite prime_loop_unknown.
Qed.

Lemma sample_unknown_symbol_witness :
  (∀ h u, Sampler.predict Sampler.abc_net 120%N h (Some 2) u = Raise KeyError) ∧
  Sampler.sample Sampler.abc_net 5 ([97; 98]%N ++ 120%N :: [99]%N) (Some 2)
    (λ _, 1 # 2)%Q = Raise KeyError.
Proof.
  apply (sample_unknown_symbol Sampler.abc_net 5 [97; 98]%N [99]%N 120%N (Some 2)
           (λ _, 1 # 2)%Q).
  - exact abc_net_shaped.
  - cbn. lia.
  - intros t. split; [unfold Qle|unfold Qlt]; cbn; lia.
  - repeat constructor.
  - intros Hin. repeat (apply elem_of_cons in Hin as [Hin|Hin]; [done|]).
    by apply elem_of_nil in Hin.
Defined.

(** ** The Keras notebooks: windows and targets *)

(** X12. The windows of the corpus: for a positive [step] the loop over
    [range(0, len(text) - max_len, step)] never reads past the end of the
    text; it produces [ceil((len(text) - max_len) / step)] sentences (none
    when the text has at most [max_len] symbols), the [k]-th being
    [text[k*step : k*step + max_len]] and its next character
    [text[k*step + max_len]]. *)
Theorem windows_sentences (max_len step : nat) (text : list char) :
  1 ≤ step →
  ∃ sentences next_chars,
    Keras.windows max_len step text = Ok (sentences, next_chars) ∧
    length sentences = (length text - max_len + step - 1) / step ∧
    length next_chars = length sentences ∧
    ∀ k, k < length sentences →
      k * step + max_len < length text ∧
      sentences !! k = Some (drop (k * step) (take (k * step + max_len) text)) ∧
      next_chars !! k = text !! (k * step + max_len).
Proof.
  intros Hstep. eexists _, _. split; [by apply windows_closed|].
  rewrite !length_fmap, !length_seq. split; [done|]. split; [done|].
  intros k Hk.
  assert (k * step + max_len < length text) as Hin.
  { apply (starts_in_range max_len step text Hstep).
    apply list_elem_of_fmap. exists k. split; [done|]. apply elem_of_seq. lia. }
  split; [done|].
  rewrite !list_lookup_fmap, lookup_seq_lt by done. cbn.
  split; [done|].
  destruct (lookup_lt_is_Some_2 text (k * step + max_len) Hin) as [c ->]. done.
Qed.

Lemma windows_sentences_witness :
  ∃ sentences next_chars,
    Keras.windows 4 3 [1; 2; 3; 4; 5; 6; 7; 8; 9; 10; 11]%N
    = Ok (sentences, next_chars) ∧
    length sentences = (length [1; 2; 3; 4; 5; 6; 7; 8; 9; 10; 11]%N - 4 + 3 - 1) / 3 ∧
    length next_chars = length sentences ∧
    ∀ k, k < length sentences →
      k * 3 + 4 < length [1; 2; 3; 4; 5; 6; 7; 8; 9; 10; 11]%N ∧
      sentences !! k
      = Some (drop (k * 3) (take (k * 3 + 4) [1; 2; 3; 4; 5; 6; 7; 8; 9; 10; 11]%N)) ∧
      next_chars !! k = [1; 2; 3; 4; 5; 6; 7; 8; 9; 10; 11]%N !! (k * 3 + 4).
Proof.
  apply (windows_sentences 4 3 [1; 2; 3; 4; 5; 6; 7; 8; 9; 10; 11]%N). lia.
Defined.

Section VectorizationAssigning.
Import Keras.
Variables (chars : list char) (max_len : nat).
Hypothesis Hnodup : NoDup chars.

Lemma store2_next (fy : list (list bool)) (rest : list (list bool)) (k : nat) :
  k < length chars →
  store2 (fy ++ replicate (length chars) false :: rest) (length fy) k
  = Ok ((fy ++ [<[k := true]> (replicate (length chars) false)]) ++ rest).
Proof.
  intros Hk. unfold store2.
  rewrite lookup_app_r, Nat.sub_diag by done. cbn [lookup list_lookup].
  rewrite length_replicate. destruct (decide (k < length chars)); [|done].
  f_equal. rewrite insert_app_r_alt, Nat.sub_diag by done.
  by rewrite <- app_assoc.
Qed.

Lemma vectorize_assigning_from (next_chars : list char) (ss : list (list char)) :
  Forall (λ s, length s = max_len ∧ ∀ c, c ∈ s → c ∈ chars) ss →
  ∀ (filled : list (list (list bool))) (fy : list (list bool)),
  length fy = length filled →
  (∀ j, j < length ss →
     ∃ nc, next_chars !! (length filled + j) = Some nc ∧ nc ∈ chars) →
  for_state (vectorize_sentence store2 chars next_chars)
    (zip (seq (length filled) (length ss)) ss)
    (filled ++ zeros3 (length ss) max_len (length chars),
     fy ++ zeros2 (length ss) (length chars))
  = Ok (filled ++
          ((λ s : list char,
              (λ c, <[default 0 (char_indices chars !! c) := true]>
                      (replicate (length chars) false)) <$> s) <$> ss),
        fy ++
          ((λ c, <[default 0 (char_indices chars !! c) := true]>
                   (replicate (length chars) false))
             <$> take (length ss) (drop (length filled) next_chars))).
Proof.
  induction 1 as [|s ss [Hlen Hs] _ IH]; intros filled fy Hfy Hnext.
  - cbn. by rewrite !app_nil_r.
  - change (zip (seq (length filled) (length (s :: ss))) (s :: ss))
      with ((length filled, s) :: zip (seq (S (length filled)) (length ss)) ss).
    change (zeros3 (length (s :: ss)) max_len (length chars))
      with (replicate max_len (replicate (length chars) false)
              :: zeros3 (length ss) max_len (length chars)).
    change (zeros2 (length (s :: ss)) (length chars))
      with (replicate (length chars) false :: zeros2 (length ss) (length chars)).
    rewrite for_state_cons.
    destruct (Hnext 0) as (nc & Hnc & Hin); [cbn; lia|].
    rewrite Nat.add_0_r in Hnc.
    unfold vectorize_sentence at 2. cbn [fst snd]. unfold enumerate.
    pose proof (fill_sentence_from chars Hnodup s []
      (filled ++ replicate max_len (replicate (length chars) false)
         :: zeros3 (length ss) max_len (length chars)) (length filled) Hs) as Hfill.
    cbn [length app] in Hfill. rewrite Hfill.
    2:{ rewrite lookup_app_r, Nat.sub_diag by done. cbn. by rewrite Hlen. }
    rewrite bind_Ok, Hnc, bind_Ok.
    destruct (getitem_char_indices chars Hnodup nc Hin) as (k & -> & _ & Hk & Hidx).
    rewrite bind_Ok. rewrite <- Hfy, store2_next, !bind_Ok by done.
    rewrite Hfy. rewrite insert_app_r_alt, Nat.sub_diag by done.
    cbn [insert list_insert].
    set (row := (λ c, <[default 0 (char_indices chars !! c) := true]>
                        (replicate (length chars) false))).
    specialize (IH (filled ++ [row <$> s]) (fy ++ [<[k := true]> (replicate (length chars) false)])).
    rewrite !length_app in IH. cbn [length] in IH. rewrite !Nat.add_1_r in IH.
    rewrite <- !app_assoc in IH. cbn [app] in IH.
    rewrite <- !app_assoc. cbn [app]. rewrite IH.
    + do 2 f_equal.
      rewrite (drop_S next_chars nc (length filled) Hnc). cbn [length take fmap list_fmap].
      subst row. cbn beta. by rewrite Hidx.
    + lia.
    + intros j Hj. destruct (Hnext (S j)) as (nc' & Hnc' & Hin'); [cbn; lia|].
      exists nc'. split; [|done]. rewrite <- Hnc'. f_equal. lia.
Qed.
End VectorizationAssigning.

(** X13. In lstm-model-1.ipynb the last statement of the loop is the
    assignment [y[i, char_indices[next_chars[i]]] = 1]: the loop completes
    for every corpus, [x] is filled as in the other revision, and row [i]
    of [y] is the one-hot vector of the character that follows sentence
    [i]. *)
Theorem vectorization_assigning_targets (text : list char) :
  ∃ sentences next_chars x y,
    Keras.windows Keras.max_len Keras.step text = Ok (sentences, next_chars) ∧
    Keras.vectorization_assigning text = Ok (x, y) ∧
    length x = length sentences ∧ length y = length sentences ∧
    (∀ i t c, sentences !! i ≫= (.!! t) = Some c →
       ∃ row, x !! i ≫= (.!! t) = Some row ∧
         length row = length (sorted_chars text) ∧
         ∀ k, row !! k = Some true ↔ sorted_chars text !! k = Some c) ∧
    (∀ i c, next_chars !! i = Some c →
       ∃ row, y !! i = Some row ∧
         length row = length (sorted_chars text) ∧
         ∀ k, row !! k = Some true ↔ sorted_chars text !! k = Some c).
Proof.
  set (chars := sorted_chars text).
  assert (NoDup chars) as Hnd.
  { subst chars. rewrite sorted_chars_listing. apply NoDup_remove_dups. }
  assert (∀ c, c ∈ text → c ∈ chars) as Hel.
  { intros c Hc. subst chars. by rewrite sorted_chars_listing, elem_of_remove_dups. }
  assert (1 ≤ Keras.step) as Hstep by (unfold Keras.step; lia).
  pose proof (windows_closed Keras.max_len Keras.step text Hstep) as Hw.
  set (starts := (λ k, k * Keras.step) <$> _) in Hw.
  set (sentences := (λ i, drop i (take (i + Keras.max_len) text)) <$> starts) in Hw.
  set (next_chars := (λ i, default 0%N (text !! (i + Keras.max_len))) <$> starts) in Hw.
  set (row := (λ c, <[default 0 (char_indices chars !! c) := true]>
                      (replicate (length chars) false))).
  assert (Forall (λ s, length s = Keras.max_len ∧ ∀ c, c ∈ s → c ∈ chars) sentences)
    as Hss.
  { subst sentences. apply Forall_fmap, Forall_forall. intros i Hi. cbn. split.
    - by apply (sentence_length Keras.max_len Keras.step text).
    - intros c Hc. by apply Hel, (sentence_chars Keras.max_len text i). }
  assert (Forall (λ c, c ∈ chars) next_chars) as Hncs.
  { subst next_chars. apply Forall_fmap, Forall_forall. intros i Hi. cbn.
    by apply Hel, (next_char_in_text Keras.max_len Keras.step text Hstep). }
  assert (length next_chars = length sentences) as Hlen.
  { subst next_chars sentences. by rewrite !length_fmap. }
  exists sentences, next_chars,
    ((λ s : list char, row <$> s) <$> sentences), (row <$> next_chars).
  split; [done|]. split; [|split; [|split; [|split]]].
  - unfold Keras.vectorization_assigning, Keras.vectorization_with. fold chars.
    rewrite Hw, bind_Ok. cbn [fst snd]. unfold enumerate.
    pose proof (vectorize_assigning_from chars Keras.max_len Hnd next_chars
      sentences Hss [] [] eq_refl) as Hv.
    cbn [length app Nat.add drop] in Hv. rewrite Hv.
    + by rewrite <- Hlen, firstn_all.
    + intros j Hj. rewrite <- Hlen in Hj.
      destruct (lookup_lt_is_Some_2 next_chars j Hj) as [nc Hnc].
      exists nc. split; [done|].
      rewrite Forall_forall in Hncs. apply Hncs. by eapply list_elem_of_lookup_2.
  - by rewrite length_fmap.
  - by rewrite length_fmap.
  - intros i t c Hc. rewrite list_lookup_fmap.
    destruct (sentences !! i) as [s|] eqn:Hs; [|done]. cbn in Hc |- *.
    rewrite list_lookup_fmap, Hc. cbn. eexists. split; [done|].
    split.
    + subst row. cbn. by rewrite length_insert, length_replicate.
    + intros k. apply one_hot_row_lookup; [done|].
      rewrite Forall_forall in Hss. apply (Hss s); [by eapply list_elem_of_lookup_2|].
      by eapply list_elem_of_lookup_2.
  - intros i c Hc. rewrite list_lookup_fmap, Hc. cbn. eexists. split; [done|].
    split.
    + subst row. cbn. by rewrite length_insert, length_replicate.
    + intros k. apply one_hot_row_lookup; [done|].
      rewrite Forall_forall in Hncs. apply Hncs. by eapply list_elem_of_lookup_2.
Qed.

(** ** The Keras notebooks: the generation loop *)

Section Greedy.
Import Generate.
Variable m : model.
Variables (max_len : nat) (chars : list char).
Hypothesis Hnodup : NoDup chars.

Lemma store_next (filled rest : matrix) (k : nat) :
  k < length chars →
  store [filled ++ replicate (length chars) 0%Z :: rest] 0 (length filled) k
  = Ok [(filled ++ [<[k := 1%Z]> (replicate (length chars) 0%Z)]) ++ rest].
Proof.
  intros Hk. unfold store. cbn [lookup list_lookup].
  rewrite lookup_app_r, Nat.sub_diag by done. cbn [lookup list_lookup].
  rewrite length_replicate. destruct (decide (k < length chars)); [|done].
  cbn [insert list_insert]. do 2 f_equal.
  rewrite insert_app_r_alt, Nat.sub_diag by done. by rewrite <- app_assoc.
Qed.

Lemma fill_pred_from (s : list char) (filled : matrix) :
  (∀ c, c ∈ s → c ∈ chars) →
  for_state (λ x (tc : nat * char),
               k ← getitem (char_indices chars) tc.2; store x 0 tc.1 k)
    (zip (seq (length filled) (length s)) s)
    [filled ++ replicate (length s) (replicate (length chars) 0%Z)]
  = Ok [filled ++
          ((λ c, <[default 0 (char_indices chars !! c) := 1%Z]>
                   (replicate (length chars) 0%Z)) <$> s)].
Proof.
  revert filled. induction s as [|c s IH]; intros filled Hs; [done|].
  change (zip (seq (length filled) (length (c :: s))) (c :: s))
    with ((length filled, c) :: zip (seq (S (length filled)) (length s)) s).
  rewrite for_state_cons. cbv beta. cbn [fst snd].
  destruct (getitem_char_indices chars Hnodup c) as (k & -> & _ & Hk & Hidx);
    [apply Hs; by left|].
  rewrite bind_Ok.
  change (replicate (length (c :: s)) (replicate (length chars) 0%Z))
    with (replicate (length chars) 0%Z
            :: replicate (length s) (replicate (length chars) 0%Z)).
  rewrite store_next, bind_Ok by done.
  specialize (IH (filled ++ [<[k := 1%Z]> (replicate (length chars) 0%Z)])).
  rewrite length_app in IH. cbn [length] in IH. rewrite Nat.add_1_r in IH.
  rewrite IH by (intros c' Hc'; apply Hs; by right).
  rewrite <- app_assoc. cbn [app fmap list_fmap]. by rewrite Hidx.
Qed.

Lemma next_char_closed (sentence : list char) :
  length sentence = max_len → (∀ c, c ∈ sentence → c ∈ chars) →
  next_char m max_len chars sentence
  = (preds ← match predict m
                     [(λ c, <[default 0 (char_indices chars !! c) := 1%Z]>
                              (replicate (length chars) 0%Z)) <$> sentence] with
             | [] => Raise IndexError
             | row :: _ => Ok row
             end;
     next_index ← argmax preds;
     getitem (indices_char chars) next_index).
Proof.
  intros Hlen Hs. unfold next_char, enumerate, OneHot.zeros.
  pose proof (fill_pred_from sentence [] Hs) as Hfill.
  cbn [length app] in Hfill. rewrite <- Hlen, Hfill. by rewrite bind_Ok.
Qed.

Lemma argmax_from_spec (l p : list Q) (best : Q) (besti : nat) :
  p !! besti = Some best →
  (∀ j w, p !! j = Some w → (w <= best)%Q ∧ (j < besti → (w < best)%Q)) →
  ∃ v, (p ++ l) !! argmax_from best besti (length p) l = Some v ∧
    ∀ j w, (p ++ l) !! j = Some w →
      (w <= v)%Q ∧ (j < argmax_from best besti (length p) l → (w < v)%Q).
Proof.
  revert p best besti. induction l as [|x l IH]; intros p best besti Hbest Hmax.
  - cbn. rewrite app_nil_r. by exists best.
  - cbn [argmax_from].
    assert (besti < length p) as Hlt by by eapply lookup_lt_Some.
    replace (p ++ x :: l) with ((p ++ [x]) ++ l) by by rewrite <- app_assoc.
    replace (S (length p)) with (length (p ++ [x]))
      by (rewrite length_app; cbn; lia).
    destruct (decide (best < x)%Q) as [Hx|Hx].
    + apply IH.
      * by rewrite lookup_app_r, Nat.sub_diag.
      * intros j w Hj.
        destruct (decide (j < length p)) as [Hjp|Hjp].
        -- rewrite lookup_app_l in Hj by done.
           destruct (Hmax j w Hj) as [Hle _].
           assert (w < x)%Q by by eapply Qle_lt_trans.
           split; [by apply Qlt_le_weak|done].
        -- rewrite lookup_app_r in Hj by lia.
           destruct (j - length p) as [|n] eqn:Hn; [|done].
           cbn in Hj. injection Hj as <-. split; [apply Qle_refl|lia].
    + apply IH.
      * by apply lookup_app_l_Some.
      * intros j w Hj.
        destruct (decide (j < length p)) as [Hjp|Hjp].
        -- rewrite lookup_app_l in Hj by done. by apply Hmax.
        -- rewrite lookup_app_r in Hj by lia.
           destruct (j - length p) as [|n] eqn:Hn; [|done].
           cbn in Hj. injection Hj as <-.
           split; [by apply Qnot_lt_le|lia].
Qed.

Lemma argmax_spec (row : list Q) :
  row ≠ [] →
  ∃ k v, argmax row = Ok k ∧ row !! k = Some v ∧
    ∀ j w, row !! j = Some w → (w <= v)%Q ∧ (j < k → (w < v)%Q).
Proof.
  destruct row as [|x l]; [done|]. intros _.
  destruct (argmax_from_spec l [x] x 0) as (v & Hv & Hmax); [done| |].
  - intros [|j] w Hj; [|done]. injection Hj as <-. split; [apply Qle_refl|lia].
  - by exists (argmax_from x 0 1 l), v.
Qed.

Lemma next_char_first_maximum (sentence : list char) :
  length sentence = max_len → (∀ c, c ∈ sentence → c ∈ chars) →
  chars ≠ [] →
  (∀ x, ∃ row rest, predict m x = row :: rest ∧ length row = length chars) →
  ∃ row rest k v c,
    predict m [(λ c, <[default 0 (char_indices chars !! c) := 1%Z]>
                       (replicate (length chars) 0%Z)) <$> sentence]
    = row :: rest ∧
    row !! k = Some v ∧
    (∀ j w, row !! j = Some w → (w <= v)%Q ∧ (j < k → (w < v)%Q)) ∧
    chars !! k = Some c ∧
    next_char m max_len chars sentence = Ok c.
Proof.
  intros Hlen Hs Hne Hshape. rewrite next_char_closed by done.
  destruct (Hshape [(λ c, <[default 0 (char_indices chars !! c) := 1%Z]>
                            (replicate (length chars) 0%Z)) <$> sentence])
    as (row & rest & Hrow & Hlr).
  rewrite Hrow, bind_Ok.
  destruct (argmax_spec row) as (k & v & -> & Hk & Hmax).
  { intros ->. destruct chars; [done|]. cbn in Hlr. lia. }
  rewrite bind_Ok.
  destruct (lookup_lt_is_Some_2 chars k) as [c Hc].
  { rewrite <- Hlr. by eapply lookup_lt_Some. }
  exists row, rest, k, v, c. do 4 (split; [done|]).
  apply getitem_Some. by rewrite indices_char_lookup.
Qed.

Lemma generate_loop (n i0 : nat) (g s : list char) :
  1 ≤ max_len → chars ≠ [] →
  (∀ x, ∃ row rest, predict m x = row :: rest ∧ length row = length chars) →
  length s = max_len → (∀ c, c ∈ s → c ∈ chars) →
  s = drop (length g - max_len) g → max_len ≤ length g →
  ∃ gen,
    for_state (generate_step m max_len chars) (seq i0 n) (g, s)
    = Ok (g ++ gen, drop (length (g ++ gen) - max_len) (g ++ gen)) ∧
    length gen = n ∧ Forall (λ c, c ∈ chars) gen ∧
    ∀ i c, gen !! i = Some c →
      next_char m max_len chars
        (take max_len (drop (length g - max_len + i) (g ++ gen))) = Ok c.
Proof.
  intros Hmax Hne Hshape. revert i0 g s.
  induction n as [|n IH]; intros i0 g s Hlen Hs Hsg Hg.
  - exists []. cbn [seq for_state]. rewrite app_nil_r, <- Hsg.
    split; [done|]. split; [done|]. split; [done|]. by intros i c.
  - cbn [seq]. rewrite for_state_cons. unfold generate_step at 2. cbn [fst snd].
    destruct (next_char_first_maximum s Hlen Hs Hne Hshape)
      as (row & rest & k & v & c & _ & _ & _ & Hc & Hnext).
    rewrite Hnext, bind_Ok.
    assert (drop 1 s ++ [c] = drop (length (g ++ [c]) - max_len) (g ++ [c])) as Hs'.
    { rewrite length_app. cbn [length].
      replace (length g + 1 - max_len) with (S (length g - max_len)) by lia.
      rewrite drop_app_le by lia. rewrite Hsg, drop_drop. do 2 f_equal. lia. }
    destruct (IH (S i0) (g ++ [c]) (drop 1 s ++ [c])) as (gen & Hloop & Hgl & Hgc & Hgen).
    + rewrite length_app, length_drop. cbn. lia.
    + intros c' [Hc'|Hc']%elem_of_app.
      * apply Hs. by eapply subseteq_drop.
      * apply list_elem_of_singleton in Hc' as ->. by eapply list_elem_of_lookup_2.
    + done.
    + rewrite length_app. cbn. lia.
    + exists (c :: gen). rewrite <- app_assoc in Hloop. cbn [app] in Hloop.
      split; [done|]. split; [by rewrite <- Hgl|].
      split; [constructor; [by eapply list_elem_of_lookup_2|done]|].
      intros [|i] c' Hi.
      * cbn in Hi. injection Hi as <-. rewrite Nat.add_0_r.
        rewrite drop_app_le by lia. rewrite <- Hsg.
        by rewrite take_app_length' by done.
      * cbn in Hi. specialize (Hgen i c' Hi).
        rewrite <- app_assoc in Hgen. cbn [app] in Hgen.
        rewrite length_app in Hgen. cbn [length] in Hgen.
        replace (length g + 1 - max_len + i) with (length g - max_len + S i)
          in Hgen by lia.
        done.
Qed.
End Greedy.

(** X14. One turn of the generation loop is a greedy choice: for a sentence
    of [max_len] symbols of the vocabulary and a model that returns rows of
    [len(chars)] scores, [x_pred] is the one-hot encoding of the sentence
    and the next character is [chars[k]] for the first position [k] at
    which the first row of the prediction is largest. *)
Theorem next_char_greedy (m : Generate.model) (max_len : nat)
    (chars sentence : list char) :
  NoDup chars → chars ≠ [] →
  length sentence = max_len → Forall (λ c, c ∈ chars) sentence →
  (∀ x, ∃ row rest, Generate.predict m x = row :: rest ∧ length row = length chars) →
  ∃ row rest k v c,
    Generate.predict m
      [(λ c, <[default 0 (char_indices chars !! c) := 1%Z]>
               (replicate (length chars) 0%Z)) <$> sentence]
    = row :: rest ∧
    row !! k = Some v ∧
    (∀ j w, row !! j = Some w → (w <= v)%Q ∧ (j < k → (w < v)%Q)) ∧
    chars !! k = Some c ∧
    Generate.next_char m max_len chars sentence = Ok c.
Proof.
  intros Hnd Hne Hlen Hs Hshape. rewrite Forall_forall in Hs.
  by apply next_char_first_maximum.
Qed.

Lemma next_char_greedy_witness :
  ∃ row rest k v c,
    Generate.predict {| Generate.predict := λ _, [[1 # 4; 1 # 2; 1 # 2]%Q] |}
      [(λ c, <[default 0 (char_indices [97; 98; 99]%N !! c) := 1%Z]>
               (replicate (length [97; 98; 99]%N) 0%Z)) <$> [99; 97]%N]
    = row :: rest ∧
    row !! k = Some v ∧
    (∀ j w, row !! j = Some w → (w <= v)%Q ∧ (j < k → (w < v)%Q)) ∧
    [97; 98; 99]%N !! k = Some c ∧
    Generate.next_char {| Generate.predict := λ _, [[1 # 4; 1 # 2; 1 # 2]%Q] |}
      2 [97; 98; 99]%N [99; 97]%N = Ok c.
Proof.
  apply (next_char_greedy {| Generate.predict := λ _, [[1 # 4; 1 # 2; 1 # 2]%Q] |}
           2 [97; 98; 99]%N [99; 97]%N).
  - apply (bool_decide_unpack _). by vm_compute.
  - done.
  - done.
  - apply (bool_decide_unpack _). by vm_compute.
  - intros x. by exists [1 # 4; 1 # 2; 1 # 2]%Q, [].
Defined.

(** X15. The generation cell of lstm-model-1.ipynb on a corpus longer than
    [max_len], with a model that returns rows of [len(chars)] scores: the
    loop completes; the generated string is the seed
    [text[start : start + max_len]] followed by 400 symbols, all of them
    symbols of the corpus; and the [i]-th generated symbol is the next
    character computed from the [max_len] symbols that precede it, the
    sentence being a window sliding over the generated string. *)
Theorem generate_sliding_window (m : Generate.model) (text : list char) (r : nat) :
  Keras.max_len < length text →
  (∀ x, ∃ row rest, Generate.predict m x = row :: rest ∧
                    length row = length (sorted_chars text)) →
  let start := r `mod` (length text - Keras.max_len) in
  ∃ g, Generate.generate m text r = Ok g ∧
    length g = Keras.max_len + Generate.n_generated ∧
    take Keras.max_len g = drop start (take (start + Keras.max_len) text) ∧
    Forall (λ c, c ∈ text) g ∧
    ∀ i, i < Generate.n_generated →
      ∃ c, Generate.next_char m Keras.max_len (sorted_chars text)
             (take Keras.max_len (drop i g)) = Ok c ∧
           g !! (Keras.max_len + i) = Some c.
Proof.
  intros Hlong Hshape start.
  set (chars := sorted_chars text).
  assert (NoDup chars) as Hnd.
  { subst chars. rewrite sorted_chars_listing. apply NoDup_remove_dups. }
  assert (∀ c, c ∈ text ↔ c ∈ chars) as Hel.
  { intros c. subst chars. by rewrite sorted_chars_listing, elem_of_remove_dups. }
  assert (chars ≠ []) as Hne.
  { destruct text as [|c text]; [cbn in Hlong; lia|].
    intros Hnil. assert (c ∈ chars) as Hc by (apply Hel; by left).
    rewrite Hnil in Hc. by apply elem_of_nil in Hc. }
  assert (start < length text - Keras.max_len) as Hstart.
  { subst start. apply Nat.mod_upper_bound. lia. }
  set (sentence := drop start (take (start + Keras.max_len) text)).
  assert (length sentence = Keras.max_len) as Hlen.
  { subst sentence. rewrite length_drop, length_take. lia. }
  assert (∀ c, c ∈ sentence → c ∈ chars) as Hs.
  { intros c Hc. apply Hel. subst sentence.
    by eapply subseteq_take, subseteq_drop. }
  destruct (generate_loop m Keras.max_len chars Hnd Generate.n_generated 0
              sentence sentence) as (gen & Hloop & Hgl & Hgc & Hgen);
    try done.
  { unfold Keras.max_len. lia. }
  { by rewrite Hlen, Nat.sub_diag. }
  { lia. }
  exists (sentence ++ gen). split; [|split; [|split; [|split]]].
  - unfold Generate.generate, Generate.randint.
    destruct (decide _) as [Hneg|_]; [lia|].
    rewrite bind_Ok.
    replace (Z.to_nat (0 + Z.of_nat r `mod`
               (Z.of_nat (length text) - Z.of_nat Keras.max_len - 1 - 0 + 1)))
      with start.
    2:{ subst start. rewrite Z.add_0_l.
        replace (Z.of_nat (length text) - Z.of_nat Keras.max_len - 1 - 0 + 1)%Z
          with (Z.of_nat (length text - Keras.max_len)) by lia.
        rewrite <- Nat2Z.inj_mod. by rewrite Nat2Z.id. }
    fold chars sentence. by rewrite Hloop.
  - rewrite length_app, Hlen, Hgl. done.
  - rewrite <- Hlen. by rewrite take_app_length.
  - apply Forall_app. split; apply Forall_forall; intros c Hc; apply Hel.
    + by apply Hs.
    + rewrite Forall_forall in Hgc. by apply Hgc.
  - intros i Hi. rewrite <- Hgl in Hi.
    destruct (lookup_lt_is_Some_2 gen i Hi) as [c Hc]. exists c.
    specialize (Hgen i c Hc). rewrite Hlen, Nat.sub_diag in Hgen.
    split; [done|].
    rewrite lookup_app_r by lia. rewrite <- Hc. f_equal. lia.
Qed.

Lemma generate_sliding_window_witness :
  let start := 7 `mod` (length (replicate 41 97%N ++ [98%N]) - Keras.max_len) in
  ∃ g, Generate.generate {| Generate.predict := λ _, [[1 # 4; 3 # 4]%Q] |}
         (replicate 41 97%N ++ [98%N]) 7 = Ok g ∧
    length g = Keras.max_len + Generate.n_generated ∧
    take Keras.max_len g
    = drop start (take (start + Keras.max_len) (replicate 41 97%N ++ [98%N])) ∧
    Forall (λ c, c ∈ replicate 41 97%N ++ [98%N]) g ∧
    ∀ i, i < Generate.n_generated →
      ∃ c, Generate.next_char {| Generate.predict := λ _, [[1 # 4; 3 # 4]%Q] |}
             Keras.max_len (sorted_chars (replicate 41 97%N ++ [98%N]))
             (take Keras.max_len (drop i g)) = Ok c ∧
           g !! (Keras.max_len + i) = Some c.
Proof.
  apply (generate_sliding_window {| Generate.predict := λ _, [[1 # 4; 3 # 4]%Q] |}
           (replicate 41 97%N ++ [98%N]) 7).
  - vm_compute. lia.
  - intros x. by exists [1 # 4; 3 # 4]%Q, [].
Defined.



(** ** Training: the steps and the lines printed *)

Lemma Forall_chunks {A : Type} (Q : A → Prop) (k w : nat) (l : list A) :
  Forall Q l → Forall (Forall Q) (chunks k w l).
Proof.
  revert l. induction k as [|k IH]; intros l Hl; cbn; constructor.
  - by apply Forall_take.
  - by apply IH, Forall_drop.
Qed.

Section TrainProofs.
Import Train.
Context {P H L : Type}.
Variable lib : learner P H L.
Variables (n_seqs n_steps n_chars print_every : nat).
Hypothesis Hseqs : 1 ≤ n_seqs.
Hypothesis Hsteps : 1 ≤ n_steps.

(** A batch as the loops need it: the input is encoded and the target is
    flattened without error. *)
Let usable (b : matrix * matrix) : Prop :=
  (∃ x, OneHot.one_hot_encode b.1 n_chars = Ok x) ∧
  view b.2 (n_seqs * n_steps) = Ok (concat b.2).

Lemma batches_usable (arr : list Z) :
  Forall (λ v, (0 ≤ v < Z.of_nat n_chars)%Z) arr →
  ∃ bs, Batcher.get_batches arr n_seqs n_steps = Ok bs ∧
    length bs = length arr / (n_seqs * n_steps) ∧ Forall usable bs.
Proof.
  intros Harr. eexists. split; [by apply get_batches_closed|].
  split; [by rewrite length_fmap, length_seq|].
  apply Forall_fmap, Forall_forall. intros k Hk%elem_of_seq. cbn.
  set (R := Batcher.rows_of arr n_seqs n_steps).
  assert (Forall (λ r, length r = n_steps)
            (cols R (k * n_steps) (k * n_steps + n_steps))) as Hw
    by (apply slice_width; [done|done|lia]).
  split.
  - eexists. apply (one_hot_encode_closed n_chars _ n_steps); [done|].
    unfold cols. apply Forall_fmap.
    assert (Forall (Forall (λ v, (0 ≤ v < Z.of_nat n_chars)%Z)) R) as HR.
    { unfold R, Batcher.rows_of. by apply Forall_chunks, Forall_take. }
    eapply Forall_impl; [exact HR|]. intros r Hr. cbn.
    by apply Forall_drop, Forall_take.
  - unfold view, Batcher.batch_at. cbn [snd].
    rewrite (length_concat_rect n_steps) by (by apply shifted_width).
    unfold Batcher.shifted, cols.
    rewrite length_zip_with, !length_fmap. unfold R. rewrite rows_length.
    rewrite Nat.min_id. by destruct (decide _).
Qed.

Lemma validate_Ok (p : P) (val_data : list Z) :
  Forall (λ v, (0 ≤ v < Z.of_nat n_chars)%Z) val_data →
  ∃ ls, validate lib n_seqs n_steps n_chars p val_data = Ok ls.
Proof.
  intros Hval. unfold validate.
  destruct (batches_usable val_data Hval) as (bs & -> & _ & Hbs).
  rewrite bind_Ok.
  destruct (for_state_total (validate_batch lib n_seqs n_steps n_chars p)
              (λ _, True) bs (init_hidden lib p n_seqs, [])) as (vs & -> & _);
    [|done|by eexists].
  intros vs b Hb _. rewrite Forall_forall in Hbs.
  destruct (Hbs b Hb) as [[x Hx] Hy]. unfold validate_batch.
  rewrite Hx, bind_Ok, Hy, bind_Ok. by eexists.
Qed.

(** The epoch and the step of each line printed. *)
Let schedule (log : list (nat * nat * L * L)) : list (nat * nat) :=
  (λ l, (l.1.1.1, l.1.1.2)) <$> log.

Lemma train_batch_Ok (val_data : list Z) (e : nat) (s : progress P L) (h : H)
    (b : matrix * matrix) :
  1 ≤ print_every →
  Forall (λ v, (0 ≤ v < Z.of_nat n_chars)%Z) val_data →
  usable b →
  ∃ s' h',
    train_batch lib n_seqs n_steps n_chars print_every val_data e (s, h) b
    = Ok (s', h') ∧
    counter s' = S (counter s) ∧
    schedule (printed s')
    = schedule (printed s)
      ++ ((λ c, (e + 1, c)) <$> filter (λ c, c `mod` print_every = 0) [S (counter s)]).
Proof.
  intros Hpe Hval [[x Hx] Hy]. unfold train_batch. cbn [fst snd].
  rewrite Hx, bind_Ok, Hy, bind_Ok. cbv zeta. unfold modulo.
  destruct (decide (print_every = 0)); [lia|]. rewrite bind_Ok.
  destruct (decide (S (counter s) `mod` print_every = 0)) as [Hm|Hm].
  - destruct (validate_Ok
                (fit lib (net s) x h (concat b.2)).1.1 val_data Hval) as [ls ->].
    rewrite bind_Ok. eexists _, _. split; [done|]. cbn [counter printed].
    split; [done|]. rewrite filter_cons_True by done.
    unfold schedule. by rewrite fmap_app.
  - eexists _, _. split; [done|]. cbn [counter printed]. split; [done|].
    rewrite filter_cons_False by done. cbn. by rewrite app_nil_r.
Qed.

Lemma train_batches_Ok (val_data : list Z) (e : nat) (bs : list (matrix * matrix)) :
  1 ≤ print_every →
  Forall (λ v, (0 ≤ v < Z.of_nat n_chars)%Z) val_data →
  Forall usable bs →
  ∀ (s : progress P L) (h : H),
  ∃ s' h',
    for_state (train_batch lib n_seqs n_steps n_chars print_every val_data e)
      bs (s, h) = Ok (s', h') ∧
    counter s' = counter s + length bs ∧
    schedule (printed s')
    = schedule (printed s)
      ++ ((λ c, (e + 1, c))
            <$> filter (λ c, c `mod` print_every = 0) (seq (S (counter s)) (length bs))).
Proof.
  intros Hpe Hval. induction 1 as [|b bs Hb _ IH]; intros s h.
  - exists s, h. cbn. split; [done|]. split; [lia|]. by rewrite app_nil_r.
  - rewrite for_state_cons.
    destruct (train_batch_Ok val_data e s h b Hpe Hval Hb) as (s1 & h1 & -> & Hc1 & Hp1).
    rewrite bind_Ok. destruct (IH s1 h1) as (s' & h' & -> & Hc & Hp).
    exists s', h'. split; [done|]. split; [cbn; lia|].
    rewrite Hp, Hp1, Hc1. rewrite <- app_assoc. f_equal.
    rewrite <- fmap_app, <- filter_app. done.
Qed.

Lemma train_epoch_Ok (data val_data : list Z) (s : progress P L) (e : nat) :
  1 ≤ print_every →
  Forall (λ v, (0 ≤ v < Z.of_nat n_chars)%Z) data →
  Forall (λ v, (0 ≤ v < Z.of_nat n_chars)%Z) val_data →
  let nb := length data / (n_seqs * n_steps) in
  ∃ s',
    train_epoch lib n_seqs n_steps n_chars print_every data val_data s e = Ok s' ∧
    counter s' = counter s + nb ∧
    schedule (printed s')
    = schedule (printed s)
      ++ ((λ c, (e + 1, c))
            <$> filter (λ c, c `mod` print_every = 0) (seq (S (counter s)) nb)).
Proof.
  intros Hpe Hdata Hval nb. unfold train_epoch.
  destruct (batches_usable data Hdata) as (bs & -> & Hlen & Hbs).
  rewrite bind_Ok. fold nb in Hlen.
  destruct (train_batches_Ok val_data e bs Hpe Hval Hbs s
              (init_hidden lib (net s) n_seqs)) as (s' & h' & -> & Hc & Hp).
  rewrite bind_Ok. exists s'. rewrite Hlen in Hc, Hp. done.
Qed.

Lemma train_epochs_Ok (data val_data : list Z) (n : nat) :
  1 ≤ print_every →
  Forall (λ v, (0 ≤ v < Z.of_nat n_chars)%Z) data →
  Forall (λ v, (0 ≤ v < Z.of_nat n_chars)%Z) val_data →
  let nb := length data / (n_seqs * n_steps) in
  ∀ (e0 : nat) (s : progress P L), counter s = e0 * nb →
  ∃ s',
    for_state (train_epoch lib n_seqs n_steps n_chars print_every data val_data)
      (seq e0 n) s = Ok s' ∧
    counter s' = (e0 + n) * nb ∧
    schedule (printed s')
    = schedule (printed s)
      ++ ((λ c, ((c - 1) / nb + 1, c))
            <$> filter (λ c, c `mod` print_every = 0) (seq (S (e0 * nb)) (n * nb))).
Proof.
  intros Hpe Hdata Hval nb. induction n as [|n IH]; intros e0 s Hs.
  - exists s. cbn. split; [done|]. split; [lia|]. by rewrite app_nil_r.
  - cbn [seq]. rewrite for_state_cons.
    destruct (train_epoch_Ok data val_data s e0 Hpe Hdata Hval) as (s1 & -> & Hc1 & Hp1).
    fold nb in Hc1, Hp1. rewrite bind_Ok.
    destruct (IH (S e0) s1) as (s' & -> & Hc & Hp); [lia|].
    exists s'. split; [done|]. split; [lia|].
    rewrite Hp, Hp1, Hs, <- app_assoc. f_equal.
    replace (S n * nb) with (nb + n * nb) by lia.
    rewrite seq_app, filter_app, fmap_app.
    replace (S (e0 * nb) + nb) with (S (S e0 * nb)) by lia. f_equal.
    apply Forall_fmap_ext, Forall_forall.
    intros c [_ Hc']%list_elem_of_filter. apply elem_of_seq in Hc'.
    f_equal. assert ((c - 1) / nb = e0) as ->; [|done].
    symmetry. apply (Nat.div_unique _ _ _ (c - 1 - e0 * nb)); lia.
Qed.
Lemma train_epoch_print_every_zero (data val_data : list Z) (s : progress P L)
    (e : nat) :
  print_every = 0 →
  Forall (λ v, (0 ≤ v < Z.of_nat n_chars)%Z) data →
  n_seqs * n_steps ≤ length data →
  train_epoch lib n_seqs n_steps n_chars print_every data val_data s e
  = Raise ZeroDivisionError.
Proof.
  intros Hpe Hdata Hlong. unfold train_epoch.
  destruct (batches_usable data Hdata) as (bs & -> & Hlen & Hbs).
  rewrite bind_Ok.
  assert (1 ≤ length data / (n_seqs * n_steps)) as Hnb.
  { apply Nat.div_le_lower_bound; lia. }
  destruct Hbs as [|b bs [[x Hx] Hy] _]; [cbn in Hlen; lia|].
  rewrite for_state_cons. unfold train_batch at 2. cbn [fst snd].
  rewrite Hx, bind_Ok, Hy, bind_Ok. cbv zeta. unfold modulo.
  by destruct (decide (print_every = 0)).
Qed.
End TrainProofs.

(** X17. [train] on encoded data, with positive [n_seqs], [n_steps] and
    [print_every]: all the epochs complete, and the lines printed are those
    of the steps [print_every], [2*print_every], ... up to
    [epochs * n_batches], each with the epoch
    [(step - 1) // n_batches + 1] it belongs to, [n_batches] being the
    number of batches of the training part [data[:val_idx]]. *)
Theorem train_schedule {P H L : Type} (lib : Train.learner P H L)
    (n_seqs n_steps n_chars print_every : nat) (p : P) (data : list Z)
    (epochs val_idx : nat) :
  1 ≤ n_seqs → 1 ≤ n_steps → 1 ≤ print_every →
  Forall (λ v, (0 ≤ v < Z.of_nat n_chars)%Z) data →
  let nb := length (take val_idx data) / (n_seqs * n_steps) in
  ∃ p' log,
    Train.train lib n_seqs n_steps n_chars print_every p data epochs val_idx
    = Ok (p', log) ∧
    (λ l : nat * nat * L * L, (l.1.1.1, l.1.1.2)) <$> log
    = (λ c, ((c - 1) / nb + 1, c))
        <$> filter (λ c, c `mod` print_every = 0) (seq 1 (epochs * nb)).
Proof.
  intros Hseqs Hsteps Hpe Hdata nb. unfold Train.train.
  destruct (train_epochs_Ok lib n_seqs n_steps n_chars print_every Hseqs Hsteps
              (take val_idx data) (drop val_idx data) epochs Hpe
              (Forall_take _ _ _ Hdata) (Forall_drop _ _ _ Hdata) 0
              {| Train.net := p; Train.counter := 0; Train.printed := [] |} eq_refl)
    as (s' & -> & _ & Hp).
  rewrite bind_Ok. by exists (Train.net s'), (Train.printed s').
Qed.

Lemma train_schedule_witness :
  let nb := length (take 9 [0; 1; 2; 1; 0; 2; 2; 1; 0; 1; 1; 2; 0]%Z) / (2 * 2) in
  ∃ p' log,
    Train.train
      {| Train.init_hidden := λ (_ : unit) (_ : nat), tt;
         Train.fit := λ _ _ _ targets, (tt, tt, length targets);
         Train.evaluate := λ _ _ _ targets, (tt, length targets);
         Train.mean := λ ls, length ls |}
      2 2 3 2 tt [0; 1; 2; 1; 0; 2; 2; 1; 0; 1; 1; 2; 0]%Z 3 9
    = Ok (p', log) ∧
    (λ l : nat * nat * nat * nat, (l.1.1.1, l.1.1.2)) <$> log
    = (λ c, ((c - 1) / nb + 1, c))
        <$> filter (λ c, c `mod` 2 = 0) (seq 1 (3 * nb)).
Proof.
  apply (train_schedule
           {| Train.init_hidden := λ (_ : unit) (_ : nat), tt;
              Train.fit := λ _ _ _ targets, (tt, tt, length targets);
              Train.evaluate := λ _ _ _ targets, (tt, length targets);
              Train.mean := λ ls, length ls |}
           2 2 3 2 tt [0; 1; 2; 1; 0; 2; 2; 1; 0; 1; 1; 2; 0]%Z 3 9);
    [lia | lia | lia |].
  repeat constructor; lia.
Defined.

Lemma get_batches_zero (arr : list Z) (n_seqs n_steps : nat) :
  n_seqs = 0 ∨ n_steps = 0 →
  Batcher.get_batches arr n_seqs n_steps = Raise ZeroDivisionError.
Proof.
  intros Hz. unfold Batcher.get_batches, floordiv.
  destruct (decide (n_seqs * n_steps = 0)); [done|nia].
Qed.

(** X18. The divisions of [train]: with at least one epoch it raises
    [ZeroDivisionError] when [n_seqs] or [n_steps] is zero (at the first
    batch request), and when [print_every] is zero and the training part
    holds at least one batch (at [counter % print_every], after the first
    training step). *)
Theorem train_zero_division {P H L : Type} (lib : Train.learner P H L)
    (n_seqs n_steps n_chars print_every : nat) (p : P) (data : list Z)
    (epochs val_idx : nat) :
  1 ≤ epochs →
  (n_seqs = 0 ∨ n_steps = 0) ∨
  (print_every = 0 ∧ n_seqs * n_steps ≤ length (take val_idx data) ∧
   Forall (λ v, (0 ≤ v < Z.of_nat n_chars)%Z) data) →
  Train.train lib n_seqs n_steps n_chars print_every p data epochs val_idx
  = Raise ZeroDivisionError.
Proof.
  intros Hepochs Hcase. unfold Train.train.
  destruct epochs as [|n]; [lia|]. cbn [seq]. rewrite for_state_cons.
  assert (Train.train_epoch lib n_seqs n_steps n_chars print_every
            (take val_idx data) (drop val_idx data)
            {| Train.net := p; Train.counter := 0; Train.printed := [] |} 0
          = Raise ZeroDivisionError) as ->; [|done].
  destruct (decide (n_seqs = 0 ∨ n_steps = 0)) as [Hz|Hnz].
  - unfold Train.train_epoch. by rewrite get_batches_zero.
  - destruct Hcase as [Hz|(Hpe & Hlong & Hdata)]; [done|].
    apply train_epoch_print_every_zero; [lia | lia | done | | done].
    by apply Forall_take.
Qed.

Lemma train_zero_division_witness :
  Train.train
    {| Train.init_hidden := λ (_ : unit) (_ : nat), tt;
       Train.fit := λ _ _ _ targets, (tt, tt, length targets);
       Train.evaluate := λ _ _ _ targets, (tt, length targets);
       Train.mean := λ ls, length ls |}
    2 2 3 0 tt [0; 1; 2; 1; 0; 2; 2; 1; 0; 1; 1; 2; 0]%Z 3 9
  = Raise ZeroDivisionError.
Proof.
  apply (train_zero_division
           {| Train.init_hidden := λ (_ : unit) (_ : nat), tt;
              Train.fit := λ _ _ _ targets, (tt, tt, length targets);
              Train.evaluate := λ _ _ _ targets, (tt, length targets);
              Train.mean := λ ls, length ls |}
           2 2 3 0 tt [0; 1; 2; 1; 0; 2; 2; 1; 0; 1; 1; 2; 0]%Z 3 9);
    [lia|].
  right. split; [done|]. split; [cbn; lia|]. repeat constructor; lia.
Defined.
